(** * Custom federated algorithms, part 1: the notebook's computations

    The notebook [custom-federated-algorithms-part-1.ipynb] declares a handful
    of computations by composing operators of two external libraries,
    TensorFlow ([tf.*]) and TensorFlow Federated ([tff.*]).  The development
    has these layers:

    - [Framework]: the programming surface of the two libraries that the
      notebook calls, as an interface over an arbitrary monad [M] (the effect
      of a library call) and an arbitrary scalar type [T] (the elements of a
      [tf.float32] tensor);
    - the notebook's computations, written once against that interface, cell
      by cell;
    - [reference]: the semantics of the library operators, with failures
      raised in an error monad (a call on a value placed at no client is
      refused with a ValueError), over a scalar type given by [Scalar];
    - two scalar types: [float], the finite values read exactly together
      with the infinities and nan, in which a quotient is never refused
      (0 / 0 is nan and flows on as a value); and [Qc], the finite values
      alone, for the statements of exact arithmetic, in which a quotient by
      zero has no value.  Rounding and overflow are not modelled;
    - [TypeSystem]: the type declarations of the notebook.

    Definitions come first, the properties after them. *)

From Stdlib Require Import String.
From Stdlib Require Import List ZArith QArith Qcanon Qcabs Lia Bool Arith.
From Stdlib Require Import Permutation.
From ExtLib Require Import Structures.Monad Structures.MonadExc
  Data.Monads.EitherMonad.
Import ListNotations.
Import MonadNotation.
Local Open Scope monad_scope.
Local Close Scope Qc_scope.
Local Close Scope Q_scope.
Local Open Scope nat_scope.
Local Open Scope list_scope.

Set Implicit Arguments.

(** * Part I: definitions *)

(** ** Failures of the external libraries *)

Inductive error : Type :=
| InvalidArgumentError   (* tf.errors.InvalidArgumentError: bad shape, index out of range *)
| ZeroDivisionError      (* a quotient that has no value in the scalar type:
                            only with the scalars [Qc], which have no nan *)
| ValueError.            (* a client-placed value with no member, or two with
                            different numbers of members *)

Definition result : Type -> Type := sum error.

(** ** The interface of the external libraries *)

Class Framework (M : Type -> Type) (T : Type) : Type := {
  (* conversion of a Python number literal to a float32 scalar *)
  constant : Q -> T;
  (* [x + y] on scalars *)
  add : T -> T -> T;
  (* [x / y] on scalars *)
  truediv : T -> T -> M T;
  (* [tf.data.Dataset.reduce(initial_state, reduce_func)] *)
  reduce : forall S : Type, list T -> S -> (S -> T -> S) -> S;
  (* [tf.abs] *)
  tf_abs : list T -> list T;
  (* [tf.math.top_k(input, k)]: (values, indices) *)
  top_k : list T -> nat -> M (list T * list nat)%type;
  (* [tf.gather(params, indices)] *)
  gather : list T -> list nat -> M (list T);
  (* [tf.zeros_like] *)
  zeros_like : list T -> list T;
  (* [tf.expand_dims(input, axis)] on a rank-1 tensor of indices *)
  expand_dims : list nat -> nat -> M (list (list nat));
  (* [tf.tensor_scatter_nd_add(tensor, indices, updates)] *)
  tensor_scatter_nd_add : list T -> list (list nat) -> list T -> M (list T);
  (* [tff.federated_map(fn, value)] *)
  federated_map : forall A B : Type, (A -> M B) -> list A -> M (list B);
  (* [tff.federated_mean(value, weight=None)] *)
  federated_mean : list T -> option (list T) -> M T
}.

Arguments constant {M T _} _%_Q.
Arguments reduce {M T _ S} _ _ _.
Arguments federated_map {M T _ A B} _ _.

(** ** The notebook's computations *)

Section Notebook.
Context {M : Type -> Type} {Monad_M : Monad M}.
Context {T : Type} {FW : Framework M T}.

(* @tff.federated_computation
   def hello_world(): return 'Hello, World!' *)
Definition hello_world : M string := ret "Hello, World!"%string.

(* @tff.federated_computation(SENSOR_READINGS_TYPE)
   def compute_average_temperature(sensor_readings):
       return tff.federated_mean(sensor_readings) *)
Definition compute_average_temperature (sensor_readings : list T) : M T :=
  federated_mean sensor_readings None.

(* @tff.tf_computation(COMPRESSOR_TYPE)
   def top_1_compression(gradients):
       _, indices = tf.math.top_k(tf.abs(gradients), k=1)
       updates = tf.gather(gradients, indices)
       compressed_gradients = tf.tensor_scatter_nd_add(
           tf.zeros_like(gradients), tf.expand_dims(indices, axis=1), updates)
       return compressed_gradients *)
Definition top_1_compression (gradients : list T) : M (list T) :=
  '(_, indices) <- top_k (tf_abs gradients) 1 ;;
  updates <- gather gradients indices ;;
  expanded <- expand_dims indices 1 ;;
  compressed_gradients <-
    tensor_scatter_nd_add (zeros_like gradients) expanded updates ;;
  ret compressed_gradients.

(* @tff.federated_computation(tff.FederatedType(COMPRESSOR_TYPE, tff.CLIENTS))
   def federated_top_1_compression(gradients):
       return tff.federated_map(top_1_compression, gradients) *)
Definition federated_top_1_compression (gradients : list (list T))
  : M (list (list T)) :=
  federated_map top_1_compression gradients.

(* @tff.tf_computation(tff.SequenceType(tf.float32))
   def compute_local_average(temperatures):
       total, n_obs = temperatures.reduce(
           (0.0, 0.0), lambda x, y: (x[0] + y, x[1] + 1))
       return total / n_obs *)
Definition compute_local_average (temperatures : list T) : M T :=
  let '(total, n_obs) :=
    reduce temperatures (constant 0, constant 0)
      (fun x y => (add (fst x) y, add (snd x) (constant 1))) in
  truediv total n_obs.

(* @tff.tf_computation(tff.SequenceType(tf.float32))
   def compute_number_obs(temperatures):
       size = temperatures.reduce(0.0, lambda x, _: x + 1)
       return size *)
Definition compute_number_obs (temperatures : list T) : M T :=
  let size := reduce temperatures (constant 0) (fun x _ => add x (constant 1)) in
  ret size.

(* def federated_local_average(sensor_readings):
       return tff.federated_map(compute_local_average, sensor_readings) *)
Definition federated_local_average (sensor_readings : list (list T))
  : M (list T) :=
  federated_map compute_local_average sensor_readings.

(* def federated_number_obs(sensor_readings):
       return tff.federated_map(compute_number_obs, sensor_readings) *)
Definition federated_number_obs (sensor_readings : list (list T))
  : M (list T) :=
  federated_map compute_number_obs sensor_readings.

(* def federated_global_average(sensor_readings):
       weights = federated_number_obs(sensor_readings)
       return tff.federated_mean(
           federated_local_average(sensor_readings), weights) *)
Definition federated_global_average (sensor_readings : list (list T)) : M T :=
  weights <- federated_number_obs sensor_readings ;;
  local_averages <- federated_local_average sensor_readings ;;
  federated_mean local_averages (Some weights).
End Notebook.

(** ** Scalars: what the reference semantics needs of a tensor element *)

Class Scalar (T : Type) : Type := {
  of_Q : Q -> T;
  sadd : T -> T -> T;
  smul : T -> T -> T;
  (* [None] when the quotient has no value in [T] *)
  sdiv : T -> T -> option T;
  sabs : T -> T;
  sltb : T -> T -> bool
}.

Arguments of_Q {T _} _%_Q.

(** ** Reference semantics of the library operators *)

Section Reference.
Context {M : Type -> Type} {Monad_M : Monad M} {Exc_M : MonadExc error M}.
Context {T : Type} {Scalar_T : Scalar T}.

Fixpoint mapM {A B : Type} (f : A -> M B) (l : list A) : M (list B) :=
  match l with
  | [] => ret []
  | a :: l' => b <- f a ;; bs <- mapM f l' ;; ret (b :: bs)
  end.

Definition ref_truediv (x y : T) : M T :=
  match sdiv x y with
  | Some q => ret q
  | None => raise ZeroDivisionError
  end.

Definition ref_reduce {S : Type} (ds : list T) (initial_state : S)
    (reduce_func : S -> T -> S) : S :=
  fold_left reduce_func ds initial_state.

(* [tf.math.top_k]: the entries in descending order, of two equal entries
   the one with the lower index first; the first [k] of them. *)
Fixpoint insert_desc (p : T * nat) (l : list (T * nat)) : list (T * nat) :=
  match l with
  | [] => [p]
  | q :: l' => if sltb (fst p) (fst q) then q :: insert_desc p l'
               else p :: q :: l'
  end.

Fixpoint sort_desc (l : list (T * nat)) : list (T * nat) :=
  match l with
  | [] => []
  | p :: l' => insert_desc p (sort_desc l')
  end.

Definition enumerate (input : list T) : list (T * nat) :=
  combine input (seq 0 (length input)).

Definition ref_top_k (input : list T) (k : nat) : M (list T * list nat) :=
  if length input <? k then raise InvalidArgumentError
  else let top := firstn k (sort_desc (enumerate input)) in
       ret (map fst top, map snd top).

Definition ref_gather (params : list T) (indices : list nat) : M (list T) :=
  mapM (fun i => match nth_error params i with
                 | Some v => ret v
                 | None => raise InvalidArgumentError
                 end) indices.

Definition ref_zeros_like (input : list T) : list T :=
  map (fun _ => of_Q 0) input.

Definition ref_expand_dims (input : list nat) (axis : nat)
  : M (list (list nat)) :=
  match axis with
  | 0 => ret [input]
  | 1 => ret (map (fun i => [i]) input)
  | _ => raise InvalidArgumentError
  end.

Fixpoint list_update (i : nat) (v : T) (l : list T) : list T :=
  match l, i with
  | [], _ => []
  | _ :: l', 0 => v :: l'
  | x :: l', S i' => x :: list_update i' v l'
  end.

Fixpoint scatter_add (tensor : list T) (iu : list (list nat * T))
  : M (list T) :=
  match iu with
  | [] => ret tensor
  | ([i], u) :: rest =>
      match nth_error tensor i with
      | Some v => scatter_add (list_update i (sadd v u) tensor) rest
      | None => raise InvalidArgumentError
      end
  | _ :: _ => raise InvalidArgumentError
  end.

Definition ref_tensor_scatter_nd_add (tensor : list T)
    (indices : list (list nat)) (updates : list T) : M (list T) :=
  if length indices =? length updates
  then scatter_add tensor (combine indices updates)
  else raise InvalidArgumentError.

(* [tff.federated_sum] *)
Definition federated_sum (value : list T) : T :=
  fold_left sadd value (of_Q 0).

(* [tff.federated_map]: the function applied to every member, in the
   clients' order; a value placed at no client at all is refused *)
Definition ref_federated_map {A B : Type} (fn : A -> M B) (value : list A)
  : M (list B) :=
  match value with
  | [] => raise ValueError
  | _ :: _ => mapM fn value
  end.

(* the weighted mean is the sum of the weighted members over the sum of
   the weights; without weights every member weighs one; a value placed at
   no client at all is refused *)
Definition ref_federated_mean (value : list T) (weight : option (list T))
  : M T :=
  let weights := match weight with
                 | Some w => w
                 | None => map (fun _ => of_Q 1) value
                 end in
  match value with
  | [] => raise ValueError
  | _ :: _ =>
      if length value =? length weights
      then ref_truediv
             (federated_sum (map (fun vw => smul (fst vw) (snd vw))
                               (combine value weights)))
             (federated_sum weights)
      else raise ValueError
  end.

#[export] Instance reference : Framework M T := {
  constant := of_Q;
  add := sadd;
  truediv := ref_truediv;
  reduce := @ref_reduce;
  tf_abs := map sabs;
  top_k := ref_top_k;
  gather := ref_gather;
  zeros_like := ref_zeros_like;
  expand_dims := ref_expand_dims;
  tensor_scatter_nd_add := ref_tensor_scatter_nd_add;
  federated_map := @ref_federated_map;
  federated_mean := ref_federated_mean
}.
End Reference.

(** ** Exact rational arithmetic *)

(* The finite values alone, read exactly.  [Qc] has no nan and no infinity:
   a quotient by zero has no value in this instance, and a computation that
   reaches one stops there.  [Scalar_float] below has them. *)

Definition Qc_ltb (x y : Qc) : bool := negb (Qle_bool y x).

#[export] Instance Scalar_Qc : Scalar Qc := {
  of_Q := Q2Qc;
  sadd := Qcplus;
  smul := Qcmult;
  sdiv := fun x y => if Qc_eq_bool y (Q2Qc 0%Q) then None else Some (Qcdiv x y);
  sabs := Qcabs;
  sltb := Qc_ltb
}.



(** ** Exact arithmetic: sums, counts and means over [Qc] *)

Section ExactDefinitions.
Local Open Scope Qc_scope.

Definition Qc_of_nat (n : nat) : Qc := Q2Qc (inject_Z (Z.of_nat n)).

(* the sum and the arithmetic mean of a sequence, as the words say *)
Definition Qc_sum (l : list Qc) : Qc := fold_right Qcplus 0 l.

Definition arithmetic_mean (l : list Qc) : Qc :=
  Qc_sum l / Qc_of_nat (length l).

(* the mean of the values [v] weighted by [w] *)
Definition weighted_mean (v w : list Qc) : Qc :=
  Qc_sum (map (fun vw => fst vw * snd vw) (combine v w)) / Qc_sum w.

(* the number of observations of a client, as a scalar *)
Definition observations (temperatures : list Qc) : Qc :=
  Qc_of_nat (length temperatures).
End ExactDefinitions.

(* equality of two vectors, decided *)
Fixpoint Qc_list_eqb (l1 l2 : list Qc) : bool :=
  match l1, l2 with
  | [], [] => true
  | x :: l1', y :: l2' => Qc_eq_bool x y && Qc_list_eqb l1' l2'
  | _, _ => false
  end.

Definition literal (q : Q) : Qc := of_Q q.
Arguments literal _%_Q.

(** ** The invocations shown in the notebook *)

(* compute_average_temperature([2.3, 4.5, 6.7]) *)
Definition readings_example : list Qc := map literal [2.3; 4.5; 6.7]%Q.

(* top_1_compression([1, 2, 3, 4, -5]) *)
Definition gradients_example : list Qc := map literal [1; 2; 3; 4; -5]%Q.

(* federated_top_1_compression(
     [[1, 2, 3, 4, -5], [10, 2, 3, 4, -5, 6], [1, 2, 3, 4]]) *)
Definition client_gradients_example : list (list Qc) :=
  map (map literal) [[1; 2; 3; 4; -5]; [10; 2; 3; 4; -5; 6]; [1; 2; 3; 4]]%Q.

(* federated_global_average([[68.0, 70.0], [71.0], [68.0, 72.0, 70.0]]) *)
Definition sensor_readings_example : list (list Qc) :=
  map (map literal) [[68.0; 70.0]; [71.0]; [68.0; 72.0; 70.0]]%Q.


(** ** Finite values, infinities and nan *)

(* A [tf.float32] with its special values: a finite value, read exactly (no
   rounding, no overflow, one zero), an infinity with its sign, or nan.  The
   operations treat the special values as IEEE 754 does; in particular a
   quotient is never refused: x / 0 is an infinity, and 0 / 0 is nan. *)

Section Floats.
Local Open Scope Qc_scope.

Inductive float : Type :=
| finite (q : Qc)
| inf (negative : bool)
| nan.

Definition Qc_negative (q : Qc) : bool := Qc_ltb q 0.

Definition float_add (x y : float) : float :=
  match x, y with
  | nan, _ | _, nan => nan
  | inf s, inf s' => if Bool.eqb s s' then inf s else nan
  | inf s, finite _ | finite _, inf s => inf s
  | finite a, finite b => finite (a + b)
  end.

Definition float_mul (x y : float) : float :=
  match x, y with
  | nan, _ | _, nan => nan
  | inf s, inf s' => inf (xorb s s')
  | inf s, finite q | finite q, inf s =>
      if Qc_eq_bool q 0 then nan else inf (xorb s (Qc_negative q))
  | finite a, finite b => finite (a * b)
  end.

Definition float_div (x y : float) : float :=
  match x, y with
  | nan, _ | _, nan => nan
  | inf _, inf _ => nan
  | inf s, finite q => inf (xorb s (Qc_negative q))
  | finite _, inf _ => finite 0
  | finite a, finite b =>
      if Qc_eq_bool b 0
      then if Qc_eq_bool a 0 then nan else inf (Qc_negative a)
      else finite (a / b)
  end.

Definition float_abs (x : float) : float :=
  match x with
  | finite q => finite (Qcabs q)
  | inf _ => inf false
  | nan => nan
  end.

Definition float_ltb (x y : float) : bool :=
  match x, y with
  | nan, _ | _, nan => false
  | inf s, inf s' => s && negb s'
  | inf s, finite _ => s
  | finite _, inf s' => negb s'
  | finite a, finite b => Qc_ltb a b
  end.

#[export] Instance Scalar_float : Scalar float := {
  of_Q := fun q => finite (Q2Qc q);
  sadd := float_add;
  smul := float_mul;
  sdiv := fun x y => Some (float_div x y);
  sabs := float_abs;
  sltb := float_ltb
}.

(* what averaging a sequence of finite readings gives: nan for none *)
Definition average_value (readings : list Qc) : float :=
  match readings with
  | [] => nan
  | _ :: _ => finite (arithmetic_mean readings)
  end.

(* the number of readings, as a value *)
Definition count_value (readings : list Qc) : float :=
  finite (Qc_of_nat (length readings)).
End Floats.

(** ** The type declarations of the notebook *)

Module TypeSystem.

(* the placement literals tff.CLIENTS and tff.SERVER *)
Inductive Placement : Type := CLIENTS | SERVER.

Inductive DType : Type := float32 | tf_string.

(* the type language: tff.TensorType, tff.NamedTupleType, tff.SequenceType,
   tff.FederatedType, and the type (T -> U) of a computation *)
#[warnings="-register-all"] Inductive Type_ : Type :=
| TensorType (dtype : DType) (shape : list (option nat))
| NamedTupleType (elements : list (string * Type_))
| SequenceType (element : Type_)
| FederatedType (member : Type_) (placement : Placement) (all_equal : bool)
| FunctionType (parameter : option Type_) (result : Type_).

(* [tf.float32] stands for tff.TensorType(dtype=tf.float32, shape=[]) *)
Definition tf_float32 : Type_ := TensorType float32 [].

(* temperature_type = tff.FederatedType(member=tf.float32, placement=tff.CLIENTS) *)
Definition temperature_type : Type_ := FederatedType tf_float32 CLIENTS false.

(* hyperparameter_type = tff.FederatedType(
     member=tf.float32, placement=tff.CLIENTS, all_equal=True) *)
Definition hyperparameter_type : Type_ := FederatedType tf_float32 CLIENTS true.

(* linear_regression_type = tff.NamedTupleType(
     [('m', tf.float32), ('b', tf.float32)]) *)
Definition linear_regression_type : Type_ :=
  NamedTupleType [("m"%string, tf_float32); ("b"%string, tf_float32)].

(* model_parameters = tff.FederatedType(
     linear_regression_type, tff.CLIENTS, all_equal=True) *)
Definition model_parameters : Type_ :=
  FederatedType linear_regression_type CLIENTS true.

(* SENSOR_READINGS_TYPE = tff.FederatedType(
     member=tf.float32, placement=tff.CLIENTS) *)
Definition SENSOR_READINGS_TYPE : Type_ := FederatedType tf_float32 CLIENTS false.

(* COMPRESSOR_TYPE = tff.TensorType(tf.float32, shape=(None,)) *)
Definition COMPRESSOR_TYPE : Type_ := TensorType float32 [None].

(* tff.FederatedType(COMPRESSOR_TYPE, tff.CLIENTS),
   the parameter type of federated_top_1_compression *)
Definition federated_compressor_type : Type_ :=
  FederatedType COMPRESSOR_TYPE CLIENTS false.

(* tff.SequenceType(tf.float32), the parameter type of
   compute_local_average and compute_number_obs *)
Definition temperatures_type : Type_ := SequenceType tf_float32.

(* tff.FederatedType(tff.SequenceType(tf.float32), tff.CLIENTS), the
   parameter type of federated_local_average, federated_number_obs and
   federated_global_average *)
Definition federated_temperatures_type : Type_ :=
  FederatedType (SequenceType tf_float32) CLIENTS false.

(* every type that a code cell of the notebook constructs, in order *)
Definition declared_types : list Type_ :=
  [ temperature_type; hyperparameter_type; linear_regression_type;
    model_parameters; SENSOR_READINGS_TYPE; COMPRESSOR_TYPE;
    federated_compressor_type; temperatures_type; temperatures_type;
    temperatures_type; federated_temperatures_type;
    federated_temperatures_type; federated_temperatures_type ].

(* the placement tags that occur in a type *)
Fixpoint placements (t : Type_) : list Placement :=
  match t with
  | TensorType _ _ => []
  | NamedTupleType elements =>
      (fix go (l : list (string * Type_)) : list Placement :=
         match l with
         | [] => []
         | (_, t') :: l' => placements t' ++ go l'
         end) elements
  | SequenceType element => placements element
  | FederatedType member placement _ => placement :: placements member
  | FunctionType parameter result =>
      match parameter with
      | Some p => placements p
      | None => []
      end ++ placements result
  end.

(* a type of data: no computation type occurs in it *)
Fixpoint data_type (t : Type_) : bool :=
  match t with
  | TensorType _ _ => true
  | NamedTupleType elements =>
      (fix go (l : list (string * Type_)) : bool :=
         match l with
         | [] => true
         | (_, t') :: l' => data_type t' && go l'
         end) elements
  | SequenceType element => data_type element
  | FederatedType member _ _ => data_type member
  | FunctionType _ _ => false
  end.

(* where a type carries a placement: [Some] of the member, the tag and the
   flag when the type is built by the federated-type constructor *)
Definition placed (t : Type_) : option (Type_ * Placement * bool) :=
  match t with
  | FederatedType member placement all_equal =>
      Some (member, placement, all_equal)
  | _ => None
  end.

(* the type that tff.federated_mean gives its result: for a value of type
   {T}@CLIENTS, the type T@SERVER *)
Definition federated_mean_type (value : Type_) : option Type_ :=
  match value with
  | FederatedType member CLIENTS _ => Some (FederatedType member SERVER true)
  | _ => None
  end.

(* compute_average_temperature.type_signature: the declared parameter type
   and the result type of the body, tff.federated_mean(sensor_readings) *)
Definition compute_average_temperature_type_signature : option Type_ :=
  match federated_mean_type SENSOR_READINGS_TYPE with
  | Some result => Some (FunctionType (Some SENSOR_READINGS_TYPE) result)
  | None => None
  end.

Definition Placement_eqb (p q : Placement) : bool :=
  match p, q with
  | CLIENTS, CLIENTS | SERVER, SERVER => true
  | _, _ => false
  end.

End TypeSystem.

(** * Part II: properties *)

(** ** The reference semantics in the error monad *)

Section ResultLemmas.
Context {A B : Type}.
Variable f : A -> result B.

Lemma mapM_inr (l : list A) (out : list B) :
  mapM f l = inr out <-> Forall2 (fun a b => f a = inr b) l out.
Proof.
  revert out. induction l as [|a l IH]; intros out; simpl.
  - split.
    + intros H. inversion H. constructor.
    + intros H. inversion H. reflexivity.
  - destruct (f a) as [e|b] eqn:Ha.
    + split; [discriminate|]. intros H. inversion H; subst. congruence.
    + destruct (mapM f l) as [e|bs] eqn:Hl.
      * split; [discriminate|]. intros H. inversion H; subst.
        match goal with
        | H' : Forall2 _ l _ |- _ => apply IH in H'; discriminate
        end.
      * split.
        -- intros H. inversion H; subst. constructor; [assumption|].
           apply IH. reflexivity.
        -- intros H. inversion H; subst.
           match goal with
           | H' : Forall2 _ l _ |- _ => apply IH in H'
           end.
           congruence.
Qed.

Lemma mapM_inl (l : list A) (e : error) :
  mapM f l = inl e <->
  exists l1 a l2, l = l1 ++ a :: l2 /\
                  Forall (fun a' => exists b, f a' = inr b) l1 /\
                  f a = inl e.
Proof.
  induction l as [|a l IH]; simpl.
  - split; [discriminate|]. intros (l1 & a & l2 & H & _).
    destruct l1; discriminate.
  - destruct (f a) as [e'|b] eqn:Ha.
    + split.
      * intros H. inversion H; subst. exists [], a, l. auto.
      * intros (l1 & a' & l2 & H & Hl1 & Ha').
        destruct l1 as [|a1 l1]; simpl in H; inversion H; subst.
        -- congruence.
        -- inversion Hl1 as [|? ? [b Hb] ?]; subst. congruence.
    + destruct (mapM f l) as [e'|bs] eqn:Hl.
      * split.
        -- intros H. inversion H; subst.
           destruct (proj1 IH eq_refl) as (l1 & a' & l2 & H1 & H2 & H3).
           exists (a :: l1), a', l2. subst. repeat split; eauto.
        -- intros (l1 & a' & l2 & H & Hl1 & Ha').
           destruct l1 as [|a1 l1]; simpl in H; inversion H; subst.
           ++ congruence.
           ++ inversion Hl1; subst. f_equal.
              assert (Hx : @inl error (list B) e' = inl e) by (apply IH; exists l1, a', l2; auto).
              congruence.
      * split; [discriminate|].
        intros (l1 & a' & l2 & H & Hl1 & Ha').
        destruct l1 as [|a1 l1]; simpl in H; inversion H; subst.
        -- congruence.
        -- inversion Hl1; subst.
           assert (Hx : @inr error (list B) bs = inl e) by (apply IH; exists l1, a', l2; auto).
           discriminate.
Qed.

End ResultLemmas.

Lemma mapM_map {A B : Type} (f : A -> result B) (g : A -> B) (l : list A) :
  (forall a, In a l -> f a = inr (g a)) -> mapM f l = inr (map g l).
Proof.
  intros H. apply mapM_inr.
  induction l as [|a l IH]; simpl; constructor.
  - apply H. left. reflexivity.
  - apply IH. intros a' Ha'. apply H. right. assumption.
Qed.

(** ** Exact arithmetic: sums, counts and means over [Qc] *)

Section ExactArithmetic.
Local Open Scope Qc_scope.

Lemma Qc_of_nat_0 : Qc_of_nat 0 = 0.
Proof. reflexivity. Qed.

Lemma Qc_of_nat_add (n m : nat) : Qc_of_nat (n + m) = Qc_of_nat n + Qc_of_nat m.
Proof.
  unfold Qc_of_nat, Qcplus. apply Q2Qc_eq_iff.
  rewrite Nat2Z.inj_add, inject_Z_plus.
  cbn [this Q2Qc]. now rewrite !Qred_correct.
Qed.

Lemma Qc_of_nat_S (n : nat) : Qc_of_nat (S n) = Qc_of_nat n + 1.
Proof.
  replace (S n) with (n + 1)%nat by lia. rewrite Qc_of_nat_add. reflexivity.
Qed.

Lemma Qc_of_nat_pos (n : nat) : (0 < n)%nat -> 0 < Qc_of_nat n.
Proof.
  intros H. unfold Qc_of_nat, Qclt. cbn [this Q2Qc].
  rewrite !Qred_correct. unfold Qlt. simpl. lia.
Qed.

Lemma Qc_of_nat_neq0 (n : nat) : n <> O -> Qc_of_nat n <> 0.
Proof.
  intros H E. assert (Hp : 0 < Qc_of_nat n) by (apply Qc_of_nat_pos; lia).
  rewrite E in Hp. revert Hp. apply Qcle_not_lt, Qcle_refl.
Qed.

Lemma Qc_sum_app (l1 l2 : list Qc) : Qc_sum (l1 ++ l2) = Qc_sum l1 + Qc_sum l2.
Proof.
  induction l1 as [|x l1 IH]; simpl.
  - now rewrite Qcplus_0_l.
  - rewrite IH. apply Qcplus_assoc.
Qed.

Lemma fold_left_Qcplus (l : list Qc) (a : Qc) :
  fold_left Qcplus l a = a + Qc_sum l.
Proof.
  revert a. induction l as [|x l IH]; intros a; simpl.
  - now rewrite Qcplus_0_r.
  - rewrite IH. symmetry. apply Qcplus_assoc.
Qed.

Lemma federated_sum_Qc (l : list Qc) : federated_sum l = Qc_sum l.
Proof. unfold federated_sum. simpl. rewrite fold_left_Qcplus. apply Qcplus_0_l. Qed.

Lemma reduce_count (l : list Qc) (a : Qc) :
  fold_left (fun x (_ : Qc) => x + 1) l a = a + Qc_of_nat (length l).
Proof.
  revert a. induction l as [|x l IH]; intros a; simpl length.
  - rewrite Qc_of_nat_0. now rewrite Qcplus_0_r.
  - simpl. rewrite IH, Qc_of_nat_S. ring.
Qed.

Lemma reduce_total_count (l : list Qc) (a b : Qc) :
  fold_left (fun (x : Qc * Qc) (y : Qc) => (fst x + y, snd x + 1)) l (a, b)
  = (a + Qc_sum l, b + Qc_of_nat (length l)).
Proof.
  revert a b. induction l as [|x l IH]; intros a b; simpl length.
  - simpl. now rewrite Qc_of_nat_0, !Qcplus_0_r.
  - simpl. rewrite IH, Qc_of_nat_S. f_equal; ring.
Qed.
End ExactArithmetic.


(** ** The local computations under the reference semantics *)

Section LocalComputations.
Local Open Scope Qc_scope.

Lemma ref_truediv_Qc (x y : Qc) :
  ref_truediv (M := result) x y
  = if Qc_eq_bool y 0 then inl ZeroDivisionError else inr (x / y).
Proof.
  unfold ref_truediv. simpl. destruct (Qc_eq_bool y (Q2Qc 0%Q)); reflexivity.
Qed.

Lemma ref_truediv_ok (x y : Qc) :
  y <> 0 -> ref_truediv (M := result) x y = inr (x / y).
Proof.
  intros H. rewrite ref_truediv_Qc.
  destruct (Qc_eq_bool y 0) eqn:E; [|reflexivity].
  apply Qc_eq_bool_correct in E. contradiction.
Qed.

Lemma compute_local_average_reduce (temperatures : list Qc) :
  compute_local_average (M := result) temperatures
  = ref_truediv (Qc_sum temperatures) (Qc_of_nat (length temperatures)).
Proof.
  unfold compute_local_average. simpl. unfold ref_reduce.
  change (Q2Qc 0%Q) with 0. change (Q2Qc 1%Q) with 1.
  rewrite reduce_total_count. now rewrite !Qcplus_0_l.
Qed.

Lemma compute_local_average_ok (temperatures : list Qc) :
  temperatures <> [] ->
  compute_local_average (M := result) temperatures
  = inr (arithmetic_mean temperatures).
Proof.
  intros H. rewrite compute_local_average_reduce. apply ref_truediv_ok.
  apply Qc_of_nat_neq0. destruct temperatures; [contradiction|discriminate].
Qed.

Lemma compute_number_obs_ok (temperatures : list Qc) :
  compute_number_obs (M := result) temperatures
  = inr (Qc_of_nat (length temperatures)).
Proof.
  unfold compute_number_obs. simpl. unfold ref_reduce.
  change (Q2Qc 0%Q) with 0. change (Q2Qc 1%Q) with 1.
  rewrite reduce_count. now rewrite Qcplus_0_l.
Qed.

Lemma ref_federated_mean_members {T : Type} {Scalar_T : Scalar T}
    (value : list T) (weight : option (list T)) :
  value <> [] ->
  ref_federated_mean (M := result) value weight
  = let weights := match weight with
                   | Some w => w
                   | None => map (fun _ => of_Q 1) value
                   end in
    if length value =? length weights
    then ref_truediv
           (federated_sum (map (fun vw => smul (fst vw) (snd vw))
                             (combine value weights)))
           (federated_sum weights)
    else inl ValueError.
Proof.
  intros H. destruct value; [contradiction|reflexivity].
Qed.

Lemma ref_federated_map_members {T : Type} {Scalar_T : Scalar T}
    {A B : Type} (fn : A -> result B) (value : list A) :
  value <> [] ->
  federated_map (M := result) (T := T) fn value = mapM fn value.
Proof.
  intros H. destruct value; [contradiction|reflexivity].
Qed.

Lemma ref_federated_mean_weighted (value weight : list Qc) :
  value <> [] ->
  length value = length weight -> Qc_sum weight <> 0 ->
  ref_federated_mean (M := result) value (Some weight)
  = inr (weighted_mean value weight).
Proof.
  intros Hv Hl Hw. rewrite ref_federated_mean_members by assumption.
  cbv zeta. rewrite Hl, Nat.eqb_refl, !federated_sum_Qc.
  now apply ref_truediv_ok.
Qed.

Lemma ref_federated_mean_unweighted (value : list Qc) :
  value <> [] ->
  ref_federated_mean (M := result) value None = inr (arithmetic_mean value).
Proof.
  intros H. rewrite ref_federated_mean_members by assumption. cbv zeta.
  rewrite length_map, Nat.eqb_refl, !federated_sum_Qc.
  assert (Hw : Qc_sum (map (fun _ : Qc => of_Q 1) value) = Qc_of_nat (length value)).
  { clear H. induction value as [|x l IH]; [reflexivity|].
    simpl length. rewrite Qc_of_nat_S. simpl. simpl in IH. rewrite IH.
    change (Q2Qc 1%Q) with 1. ring. }
  assert (Hv : Qc_sum (map (fun vw : Qc * Qc => smul (fst vw) (snd vw))
                         (combine value (map (fun _ : Qc => of_Q 1) value)))
               = Qc_sum value).
  { clear. induction value as [|x l IH]; [reflexivity|].
    simpl. simpl in IH. rewrite IH. change (Q2Qc 1%Q) with 1. ring. }
  rewrite Hw, Hv. apply ref_truediv_ok, Qc_of_nat_neq0.
  destruct value; [contradiction|discriminate].
Qed.
End LocalComputations.


(** ** The federated average of local averages *)

Section GlobalAverage.
Local Open Scope Qc_scope.

Lemma federated_number_obs_ok (sensor_readings : list (list Qc)) :
  sensor_readings <> [] ->
  federated_number_obs (M := result) sensor_readings
  = inr (map observations sensor_readings).
Proof.
  intros Hne. unfold federated_number_obs.
  rewrite ref_federated_map_members by assumption. apply mapM_map.
  intros l _. apply compute_number_obs_ok.
Qed.

Lemma federated_local_average_ok (sensor_readings : list (list Qc)) :
  sensor_readings <> [] ->
  Forall (fun l => l <> []) sensor_readings ->
  federated_local_average (M := result) sensor_readings
  = inr (map arithmetic_mean sensor_readings).
Proof.
  intros Hne H. unfold federated_local_average.
  rewrite ref_federated_map_members by assumption. apply mapM_map.
  intros l Hl. apply compute_local_average_ok.
  rewrite Forall_forall in H. now apply H.
Qed.

Lemma sum_observations (sensor_readings : list (list Qc)) :
  Qc_sum (map observations sensor_readings)
  = Qc_of_nat (length (concat sensor_readings)).
Proof.
  induction sensor_readings as [|l ls IH]; [reflexivity|].
  simpl. rewrite length_app, Qc_of_nat_add, IH. reflexivity.
Qed.

Lemma sum_weighted_averages (sensor_readings : list (list Qc)) :
  Forall (fun l => l <> []) sensor_readings ->
  Qc_sum (map (fun vw => fst vw * snd vw)
            (combine (map arithmetic_mean sensor_readings)
                     (map observations sensor_readings)))
  = Qc_sum (concat sensor_readings).
Proof.
  induction 1 as [|l ls Hl Hls IH]; [reflexivity|].
  simpl. rewrite IH, Qc_sum_app. f_equal.
  unfold arithmetic_mean, observations.
  rewrite Qcmult_comm. apply Qcmult_div_r, Qc_of_nat_neq0.
  destruct l; [contradiction|discriminate].
Qed.

Lemma federated_global_average_weighted (sensor_readings : list (list Qc)) :
  sensor_readings <> [] ->
  Forall (fun l => l <> []) sensor_readings ->
  federated_global_average (M := result) sensor_readings
  = inr (weighted_mean (map arithmetic_mean sensor_readings)
                       (map observations sensor_readings)).
Proof.
  intros Hne Hall. unfold federated_global_average.
  rewrite federated_number_obs_ok, federated_local_average_ok by assumption.
  simpl. apply ref_federated_mean_weighted.
  - destruct sensor_readings; [contradiction|discriminate].
  - now rewrite !length_map.
  - rewrite sum_observations. apply Qc_of_nat_neq0.
    destruct sensor_readings as [|l ls]; [contradiction|].
    inversion Hall; subst. destruct l; [contradiction|discriminate].
Qed.

(** C4. For a non-empty list of non-empty client sequences, the weighted
    average of the clients' local averages, each weighted by its number of
    observations, is the arithmetic mean of all the observations together
    (exact arithmetic). *)
Theorem federated_global_average_is_mean (sensor_readings : list (list Qc)) :
  sensor_readings <> [] ->
  Forall (fun l => l <> []) sensor_readings ->
  federated_global_average (M := result) sensor_readings
  = inr (arithmetic_mean (concat sensor_readings)).
Proof.
  intros Hne Hall.
  rewrite federated_global_average_weighted by assumption.
  unfold weighted_mean.
  rewrite sum_weighted_averages, sum_observations by assumption.
  reflexivity.
Qed.
End GlobalAverage.


(** ** Top-1 compression *)

Section Top1.
Local Open Scope Qc_scope.

Lemma Qc_ltb_lt (x y : Qc) : Qc_ltb x y = true <-> x < y.
Proof.
  unfold Qc_ltb, Qclt. rewrite negb_true_iff.
  split.
  - intros H. apply Qnot_le_lt. intros Hle.
    apply Qle_bool_iff in Hle. congruence.
  - intros H. destruct (Qle_bool y x) eqn:E; [|reflexivity].
    apply Qle_bool_iff in E. exfalso. revert E. now apply Qlt_not_le.
Qed.

Lemma Qc_ltb_ge (x y : Qc) : Qc_ltb x y = false <-> y <= x.
Proof.
  unfold Qc_ltb, Qcle. rewrite negb_false_iff. apply Qle_bool_iff.
Qed.

Lemma sort_desc_cons (p : Qc * nat) (l : list (Qc * nat)) :
  sort_desc (p :: l) = insert_desc p (sort_desc l).
Proof. reflexivity. Qed.

Lemma insert_desc_cons (p q : Qc * nat) (l : list (Qc * nat)) :
  insert_desc p (q :: l)
  = if Qc_ltb (fst p) (fst q) then q :: insert_desc p l else p :: q :: l.
Proof. reflexivity. Qed.

(* the head of the sorted enumeration is the first maximum *)
Lemma sort_desc_head (l : list Qc) :
  l <> [] ->
  forall s : nat,
  exists v i rest,
    sort_desc (combine l (seq s (length l))) = (v, i) :: rest /\
    (s <= i)%nat /\
    nth_error l (i - s) = Some v /\
    (forall j x, nth_error l j = Some x -> x <= v) /\
    (forall j x, (j < i - s)%nat -> nth_error l j = Some x -> x < v).
Proof.
  induction l as [|a l IH]; [contradiction|]. intros _ s.
  destruct l as [|b l].
  - exists a, s, []. simpl. rewrite Nat.sub_diag.
    repeat split; auto.
    + intros [|[|j]] x Hx; simpl in Hx; try discriminate.
      inversion Hx; subst. apply Qcle_refl.
    + intros j x Hj. lia.
  - destruct (IH ltac:(discriminate) (S s)) as (v & i & rest & Hs & Hi & Hv & Hmax & Hfirst).
    change (combine (a :: b :: l) (seq s (length (a :: b :: l))))
      with ((a, s) :: combine (b :: l) (seq (S s) (length (b :: l)))).
    rewrite sort_desc_cons, Hs, insert_desc_cons. cbn [fst].
    destruct (Qc_ltb a v) eqn:E.
    + apply Qc_ltb_lt in E.
      exists v, i, (insert_desc (a, s) rest).
      assert (Hidx : (i - s = S (i - S s))%nat) by lia.
      repeat split.
      * lia.
      * rewrite Hidx. exact Hv.
      * intros [|j] x Hx; simpl in Hx.
        -- inversion Hx; subst. now apply Qclt_le_weak.
        -- eapply Hmax; eassumption.
      * intros [|j] x Hj Hx; simpl in Hx.
        -- inversion Hx; subst. assumption.
        -- eapply Hfirst; [|eassumption]. lia.
    + apply Qc_ltb_ge in E.
      exists a, s, ((v, i) :: rest). rewrite Nat.sub_diag.
      repeat split; auto.
      * intros [|j] x Hx; simpl in Hx.
        -- inversion Hx; subst. apply Qcle_refl.
        -- eapply Qcle_trans; [|exact E]. eapply Hmax; eassumption.
      * intros j x Hj. lia.
Qed.

Lemma ref_top_k_1 (input : list Qc) :
  input <> [] ->
  exists v i,
    ref_top_k (M := result) input 1 = inr (v :: nil, i :: nil) /\
    nth_error input i = Some v /\
    (forall j x, nth_error input j = Some x -> x <= v) /\
    (forall j x, (j < i)%nat -> nth_error input j = Some x -> x < v).
Proof.
  intros H.
  destruct (sort_desc_head H 0) as (v & i & rest & Hs & _ & Hv & Hmax & Hfirst).
  rewrite Nat.sub_0_r in Hv, Hfirst.
  exists v, i. repeat split; auto.
  unfold ref_top_k, enumerate. rewrite Hs.
  destruct input; [contradiction|reflexivity].
Qed.

Lemma list_update_length (i : nat) (v : Qc) (l : list Qc) :
  length (list_update i v l) = length l.
Proof.
  revert i. induction l as [|x l IH]; intros [|i]; simpl; auto.
Qed.

Lemma nth_list_update_eq (i : nat) (v d : Qc) (l : list Qc) :
  (i < length l)%nat -> nth i (list_update i v l) d = v.
Proof.
  revert i. induction l as [|x l IH]; intros [|i] H; simpl in *; try lia; auto.
  apply IH. lia.
Qed.

Lemma nth_list_update_neq (i j : nat) (v d : Qc) (l : list Qc) :
  i <> j -> nth j (list_update i v l) d = nth j l d.
Proof.
  revert i j. induction l as [|x l IH]; intros [|i] [|j] H; simpl; auto.
  contradiction.
Qed.

Lemma nth_zeros (j : nat) (l : list Qc) : nth j (map (fun _ => 0) l) 0 = 0.
Proof.
  revert j. induction l as [|x l IH]; intros [|j]; simpl; auto.
Qed.

(* what the compression returns on a non-empty vector *)
Lemma top_1_compression_ok (gradients : list Qc) :
  gradients <> [] ->
  exists i gi,
    nth_error gradients i = Some gi /\
    (forall j x, nth_error gradients j = Some x -> Qcabs x <= Qcabs gi) /\
    (forall j x, (j < i)%nat -> nth_error gradients j = Some x ->
                 Qcabs x < Qcabs gi) /\
    top_1_compression (M := result) gradients
    = inr (list_update i gi (map (fun _ => 0) gradients)).
Proof.
  intros H.
  assert (Habs : map Qcabs gradients <> []) by (destruct gradients; [contradiction|discriminate]).
  destruct (ref_top_k_1 Habs) as (v & i & Htop & Hv & Hmax & Hfirst).
  rewrite nth_error_map in Hv.
  destruct (nth_error gradients i) as [gi|] eqn:Hgi; [|discriminate].
  simpl in Hv. inversion Hv; subst v. clear Hv.
  exists i, gi. split; [exact Hgi|]. split; [|split].
  - intros j x Hx. apply (Hmax j). rewrite nth_error_map, Hx. reflexivity.
  - intros j x Hj Hx. apply (Hfirst j); [assumption|].
    rewrite nth_error_map, Hx. reflexivity.
  - unfold top_1_compression. simpl. rewrite Htop. simpl.
    unfold ref_gather. simpl. rewrite Hgi. simpl.
    unfold ref_tensor_scatter_nd_add, ref_zeros_like. simpl.
    rewrite nth_error_map, Hgi. simpl.
    change (Q2Qc 0%Q) with 0. now rewrite Qcplus_0_l.
Qed.

(** C6. On a non-empty vector the compression returns a vector of the same
    length that is zero everywhere except at one index, where it keeps the
    input's value; that index is the smallest one at which the absolute
    value of the input is maximal. *)
Theorem top_1_compression_spec (gradients : list Qc) :
  gradients <> [] ->
  exists (i : nat) (compressed : list Qc),
    top_1_compression (M := result) gradients = inr compressed /\
    length compressed = length gradients /\
    (i < length gradients)%nat /\
    nth i compressed 0 = nth i gradients 0 /\
    (forall j, j <> i -> nth j compressed 0 = 0) /\
    (forall j, Qcabs (nth j gradients 0) <= Qcabs (nth i gradients 0)) /\
    (forall j, (j < i)%nat ->
               Qcabs (nth j gradients 0) < Qcabs (nth i gradients 0)).
Proof.
  intros H.
  destruct (top_1_compression_ok H) as (i & gi & Hgi & Hmax & Hfirst & Hrun).
  assert (Hi : (i < length gradients)%nat).
  { apply nth_error_Some. congruence. }
  assert (Hnth : nth i gradients 0 = gi).
  { now apply nth_error_nth. }
  exists i, (list_update i gi (map (fun _ => 0) gradients)).
  rewrite Hnth.
  split; [exact Hrun|]. split; [|split; [exact Hi|]].
  { now rewrite list_update_length, length_map. }
  split; [|split; [|split]].
  - apply nth_list_update_eq. now rewrite length_map.
  - intros j Hj. rewrite nth_list_update_neq by auto. apply nth_zeros.
  - intros j.
    destruct (nth_error gradients j) as [x|] eqn:Hx.
    + rewrite (nth_error_nth _ _ _ Hx). eapply Hmax; eassumption.
    + rewrite nth_overflow by now apply nth_error_None.
      apply Qcabs_nonneg.
  - intros j Hj.
    destruct (nth_error gradients j) as [x|] eqn:Hx.
    + rewrite (nth_error_nth _ _ _ Hx). eapply Hfirst; eassumption.
    + apply nth_error_None in Hx. lia.
Qed.
End Top1.


(** ** Deciding equalities of exact results by evaluation *)

Lemma Qc_list_eqb_eq (l1 l2 : list Qc) : Qc_list_eqb l1 l2 = true -> l1 = l2.
Proof.
  revert l2. induction l1 as [|x l1 IH]; intros [|y l2] H; simpl in H;
    try discriminate; [reflexivity|].
  apply andb_true_iff in H. destruct H as [Hx Hl].
  apply Qc_eq_bool_correct in Hx. apply IH in Hl. congruence.
Qed.

Lemma Qc_eq_bool_neq (x y : Qc) : Qc_eq_bool x y = false -> x <> y.
Proof.
  unfold Qc_eq_bool. destruct (Qc_eq_dec x y); [discriminate|auto].
Qed.

(* a Python number literal fed to a computation *)
(** ** The invocations shown in the notebook *)

Lemma federated_global_average_example_value :
  federated_global_average (M := result) sensor_readings_example
  = inr (literal (419 # 6)).
Proof.
  rewrite federated_global_average_weighted.
  - apply f_equal, Qc_eq_bool_correct. vm_compute. reflexivity.
  - discriminate.
  - repeat constructor; discriminate.
Qed.

(** C1 (as stated). The documented invocation does not return 70.0. *)
Lemma documented_average_is_not_70 :
  federated_global_average (M := result) sensor_readings_example
  <> inr (literal 70.0).
Proof.
  rewrite federated_global_average_example_value. intros H.
  apply (@Qc_eq_bool_neq (literal (419 # 6)) (literal 70.0)).
  - vm_compute. reflexivity.
  - congruence.
Qed.

(** C1 (amended). The documented invocation returns 419/6 (about 69.83): the
    mean of the clients' local averages 69, 71 and 70 weighted by the
    clients' numbers of observations 2, 1 and 3, which federated_number_obs
    produces; that is (2*69 + 71 + 3*70) / 6. *)
Theorem documented_average_is_419_over_6 :
  federated_number_obs (M := result) sensor_readings_example
  = inr (map literal [2; 1; 3]%Q) /\
  federated_local_average (M := result) sensor_readings_example
  = inr (map literal [69; 71; 70]%Q) /\
  federated_global_average (M := result) sensor_readings_example
  = inr (weighted_mean (map literal [69; 71; 70]%Q) (map literal [2; 1; 3]%Q)) /\
  federated_global_average (M := result) sensor_readings_example
  = inr (literal (419 # 6)) /\
  (literal (419 # 6)
   = (literal 2 * literal 69 + literal 71 + literal 3 * literal 70) / literal 6)%Qc.
Proof.
  assert (Hw : map observations sensor_readings_example = map literal [2; 1; 3]%Q).
  { apply Qc_list_eqb_eq. vm_compute. reflexivity. }
  assert (Ha : map arithmetic_mean sensor_readings_example
               = map literal [69; 71; 70]%Q).
  { apply Qc_list_eqb_eq. vm_compute. reflexivity. }
  assert (Hne : Forall (fun l : list Qc => l <> []) sensor_readings_example).
  { repeat constructor; discriminate. }
  split; [|split; [|split; [|split]]].
  - rewrite federated_number_obs_ok, Hw; [reflexivity|discriminate].
  - rewrite federated_local_average_ok, Ha;
      [reflexivity | discriminate | exact Hne].
  - rewrite federated_global_average_weighted, Hw, Ha;
      [reflexivity | discriminate | exact Hne].
  - exact federated_global_average_example_value.
  - apply Qc_eq_bool_correct. vm_compute. reflexivity.
Qed.

(** C2. The documented invocation of compute_average_temperature returns
    the arithmetic mean of the three readings, (2.3 + 4.5 + 6.7) / 3. *)
Theorem documented_mean_temperature :
  compute_average_temperature (M := result) readings_example
  = inr (arithmetic_mean readings_example) /\
  (arithmetic_mean readings_example
   = (literal 2.3 + literal 4.5 + literal 6.7) / literal 3)%Qc.
Proof.
  split.
  - unfold compute_average_temperature. cbn [federated_mean reference].
    apply ref_federated_mean_unweighted. discriminate.
  - apply Qc_eq_bool_correct. vm_compute. reflexivity.
Qed.

(** C3. The documented invocation of top_1_compression keeps the entry -5
    at index 4, the index of the largest absolute value, and zeroes the
    four other entries. *)
Theorem documented_compression :
  top_k (M := result) (tf_abs (M := result) gradients_example) 1
  = inr ([literal 5], [4]) /\
  nth_error gradients_example 4 = Some (literal (-5)) /\
  top_1_compression (M := result) gradients_example
  = inr (map literal [0; 0; 0; 0; -5]%Q).
Proof.
  split; [|split].
  - assert (H : exists v, top_k (M := result) (tf_abs (M := result) gradients_example) 1
                          = inr ([v], [4]) /\ v = literal 5).
    { eexists. split; [vm_compute; reflexivity|].
      apply Qc_eq_bool_correct. vm_compute. reflexivity. }
    destruct H as (v & Hv & ->). exact Hv.
  - assert (H : exists v, nth_error gradients_example 4 = Some v /\ v = literal (-5)).
    { eexists. split; [vm_compute; reflexivity|].
      apply Qc_eq_bool_correct. vm_compute. reflexivity. }
    destruct H as (v & Hv & ->). exact Hv.
  - assert (H : exists l, top_1_compression (M := result) gradients_example = inr l
                          /\ l = map literal [0; 0; 0; 0; -5]%Q).
    { eexists. split; [vm_compute; reflexivity|].
      apply Qc_list_eqb_eq. vm_compute. reflexivity. }
    destruct H as (l & Hl & ->). exact Hl.
Qed.


(* the general statements, at the documented inputs *)
Lemma global_mean_at_documented_readings :
  sensor_readings_example <> [] /\
  Forall (fun l : list Qc => l <> []) sensor_readings_example /\
  federated_global_average (M := result) sensor_readings_example
  = inr (arithmetic_mean (concat sensor_readings_example)).
Proof.
  assert (Hne : sensor_readings_example <> []) by discriminate.
  assert (Hall : Forall (fun l : list Qc => l <> []) sensor_readings_example)
    by (repeat constructor; discriminate).
  exact (conj Hne (conj Hall
           (federated_global_average_is_mean Hne Hall))).
Defined.

Lemma first_maximum_at_documented_gradients :
  gradients_example <> [] /\
  exists (i : nat) (compressed : list Qc),
    top_1_compression (M := result) gradients_example = inr compressed /\
    length compressed = length gradients_example /\
    i < length gradients_example /\
    nth i compressed (literal 0) = nth i gradients_example (literal 0) /\
    (forall j, j <> i -> nth j compressed (literal 0) = literal 0) /\
    (forall j, (Qcabs (nth j gradients_example (literal 0))
                <= Qcabs (nth i gradients_example (literal 0)))%Qc) /\
    (forall j, j < i ->
               (Qcabs (nth j gradients_example (literal 0))
                < Qcabs (nth i gradients_example (literal 0)))%Qc).
Proof.
  assert (Hne : gradients_example <> []) by discriminate.
  exact (conj Hne (top_1_compression_spec Hne)).
Defined.

(** ** The local operator embedded in the federated one *)

Section FederatedMap.


End FederatedMap.

(* the documented invocation *)
Example documented_federated_compression :
  federated_top_1_compression (M := result) client_gradients_example
  = inr (map (map literal)
           [[0; 0; 0; 0; -5]; [10; 0; 0; 0; 0; 0]; [0; 0; 0; 4]]%Q).
Proof.
  unfold federated_top_1_compression.
  rewrite ref_federated_map_members by discriminate.
  apply mapM_inr. unfold client_gradients_example. simpl map.
  repeat constructor.
  all: match goal with
       | |- ?c = inr ?l =>
           let v := eval vm_compute in c in
           match v with
           | inr ?l' => transitivity (@inr error (list Qc) l');
                        [vm_compute; reflexivity|]
           end
       end.
  all: apply f_equal, Qc_list_eqb_eq; vm_compute; reflexivity.
Qed.


Example top_1_compression_empty :
  top_1_compression (M := result) (@nil Qc) = inl InvalidArgumentError.
Proof. reflexivity. Qed.

(** ** The local average needs a non-empty sequence *)

Section LocalAverage.
Local Open Scope Qc_scope.

Lemma float_reduce_count (l : list float) (b : Qc) :
  fold_left (fun (x : float) (_ : float) => float_add x (finite 1)) l (finite b)
  = finite (b + Qc_of_nat (length l)).
Proof.
  revert b. induction l as [|y l IH]; intros b; simpl length.
  - simpl. now rewrite Qc_of_nat_0, Qcplus_0_r.
  - simpl fold_left. cbn [float_add]. rewrite IH, Qc_of_nat_S.
    f_equal. ring.
Qed.

Lemma float_reduce_total_count (readings : list Qc) (a b : Qc) :
  fold_left (fun (x : float * float) (y : float) =>
               (float_add (fst x) y, float_add (snd x) (finite 1)))
            (map finite readings) (finite a, finite b)
  = (finite (a + Qc_sum readings), finite (b + Qc_of_nat (length readings))).
Proof.
  revert a b. induction readings as [|y l IH]; intros a b; simpl length.
  - simpl. now rewrite Qc_of_nat_0, !Qcplus_0_r.
  - simpl map. simpl fold_left. cbn [float_add fst snd]. rewrite IH, Qc_of_nat_S.
    f_equal; f_equal; simpl; ring.
Qed.

Lemma float_div_finite (a b : Qc) :
  b <> 0 -> float_div (finite a) (finite b) = finite (a / b).
Proof.
  intros H. unfold float_div. destruct (Qc_eq_bool b 0) eqn:E; [|reflexivity].
  apply Qc_eq_bool_correct in E. contradiction.
Qed.

Lemma compute_local_average_float (temperatures : list float) :
  compute_local_average (M := result) temperatures
  = inr (float_div
           (fst (reduce (M := result) temperatures (finite 0, finite 0)
                   (fun x y => (float_add (fst x) y, float_add (snd x) (finite 1)))))
           (snd (reduce (M := result) temperatures (finite 0, finite 0)
                   (fun x y => (float_add (fst x) y, float_add (snd x) (finite 1)))))).
Proof.
  unfold compute_local_average.
  change (constant (M := result) (T := float) 0) with (finite 0).
  change (constant (M := result) (T := float) 1) with (finite 1).
  change (add (M := result) (T := float)) with float_add.
  destruct (reduce _ _ _) as [total n_obs]. reflexivity.
Qed.

Lemma compute_local_average_finite (readings : list Qc) :
  compute_local_average (M := result) (map finite readings)
  = inr (average_value readings).
Proof.
  rewrite compute_local_average_float. cbn [reduce reference]. unfold ref_reduce.
  rewrite float_reduce_total_count, !Qcplus_0_l. cbn [fst snd].
  destruct readings as [|x l]; [reflexivity|].
  rewrite float_div_finite; [reflexivity|].
  apply Qc_of_nat_neq0. discriminate.
Qed.

(** C7 (as stated). On the empty sequence no error branch is reached: the
    computation raises nothing, it returns nan. *)
Lemma compute_local_average_empty_raises_nothing :
  compute_local_average (M := result) (@nil float) = inr nan /\
  ~ exists e : error,
      compute_local_average (M := result) (@nil float) = inl e.
Proof.
  split; [reflexivity|]. intros [e H]. discriminate.
Qed.

(** C7 (amended). The reduce of compute_local_average runs a total and a
    count from (0.0, 0.0); the quotient total / count is taken without a
    guard and never raises; on the empty sequence the division 0.0 / 0.0 is
    reached and the result is nan; the empty sequence is the only sequence
    of finite readings with that result: on a non-empty one the count is
    not zero and the result is the arithmetic mean. *)
Theorem compute_local_average_requires_nonempty :
  (forall readings : list Qc,
      reduce (M := result) (map finite readings) (finite 0, finite 0)
        (fun x y => (float_add (fst x) y, float_add (snd x) (finite 1)))
      = (finite (Qc_sum readings), finite (Qc_of_nat (length readings)))) /\
  (forall temperatures : list float,
      exists total n_obs : float,
        reduce (M := result) temperatures (finite 0, finite 0)
          (fun x y => (float_add (fst x) y, float_add (snd x) (finite 1)))
        = (total, n_obs) /\
        compute_local_average (M := result) temperatures
        = inr (float_div total n_obs)) /\
  compute_local_average (M := result) (@nil float)
  = inr (float_div (finite 0) (finite 0)) /\
  float_div (finite 0) (finite 0) = nan /\
  (forall readings : list Qc,
      compute_local_average (M := result) (map finite readings) = inr nan <->
      readings = []) /\
  (forall readings : list Qc,
      readings <> [] ->
      compute_local_average (M := result) (map finite readings)
      = inr (finite (arithmetic_mean readings))).
Proof.
  split; [|split; [|split; [|split; [|split]]]].
  - intros l. cbn [reduce reference]. unfold ref_reduce.
    rewrite float_reduce_total_count. now rewrite !Qcplus_0_l.
  - intros l. rewrite compute_local_average_float.
    destruct (reduce _ _ _) as [total n_obs]. exists total, n_obs. auto.
  - reflexivity.
  - reflexivity.
  - intros l. rewrite compute_local_average_finite. split.
    + destruct l; [reflexivity|discriminate].
    + intros ->. reflexivity.
  - intros l H. rewrite compute_local_average_finite.
    destruct l; [contradiction|reflexivity].
Qed.
End LocalAverage.

(** ** Failures of the library calls pass through the computations *)

Section ErrorPropagation.
Context {T : Type} (FW : Framework result T).

(** C10. Whatever the library operators do, each computation of the
    notebook is the composition of its library calls in the order in which
    it makes them: a failure of a call is the failure of the computation,
    unchanged; when every call returns, the computation returns what the
    last call returned; the computations add no failure of their own and
    recover from none. *)
Theorem no_error_handling :
  hello_world (M := result) = inr "Hello, World!"%string /\
  (forall sensor_readings : list T,
      compute_average_temperature sensor_readings
      = federated_mean sensor_readings None) /\
  (forall gradients : list T,
      top_1_compression gradients
      = match top_k (tf_abs gradients) 1 with
        | inl e => inl e
        | inr (_, indices) =>
            match gather gradients indices with
            | inl e => inl e
            | inr updates =>
                match expand_dims indices 1 with
                | inl e => inl e
                | inr expanded =>
                    tensor_scatter_nd_add (zeros_like gradients) expanded updates
                end
            end
        end) /\
  (forall gradients : list (list T),
      federated_top_1_compression gradients
      = federated_map top_1_compression gradients) /\
  (forall temperatures : list T,
      compute_local_average temperatures
      = let state := reduce temperatures (constant 0, constant 0)
                       (fun x y => (add (fst x) y, add (snd x) (constant 1))) in
        truediv (fst state) (snd state)) /\
  (forall temperatures : list T,
      compute_number_obs temperatures
      = inr (reduce temperatures (constant 0)
               (fun x _ => add x (constant 1)))) /\
  (forall sensor_readings : list (list T),
      federated_local_average sensor_readings
      = federated_map compute_local_average sensor_readings) /\
  (forall sensor_readings : list (list T),
      federated_number_obs sensor_readings
      = federated_map compute_number_obs sensor_readings) /\
  (forall sensor_readings : list (list T),
      federated_global_average sensor_readings
      = match federated_number_obs sensor_readings with
        | inl e => inl e
        | inr weights =>
            match federated_local_average sensor_readings with
            | inl e => inl e
            | inr local_averages =>
                federated_mean local_averages (Some weights)
            end
        end).
Proof.
  repeat match goal with |- _ /\ _ => split end; try reflexivity.
  - intros g. unfold top_1_compression. simpl.
    destruct (top_k (tf_abs g) 1) as [e|[values indices]]; [reflexivity|].
    destruct (gather g indices) as [e|updates]; [reflexivity|].
    destruct (expand_dims indices 1) as [e|expanded]; [reflexivity|].
    destruct (tensor_scatter_nd_add (zeros_like g) expanded updates);
      reflexivity.
  - intros l. unfold compute_local_average.
    destruct (reduce l _ _). reflexivity.
Qed.
End ErrorPropagation.


(** ** The placements in the declared types *)

Module TypeSystemFacts.
Import TypeSystem.

Lemma Placement_eqb_eq (p q : Placement) : Placement_eqb p q = true <-> p = q.
Proof. destruct p, q; simpl; split; congruence. Qed.

Lemma In_existsb (p : Placement) (l : list Placement) :
  In p l <-> existsb (Placement_eqb p) l = true.
Proof.
  rewrite existsb_exists. split.
  - intros H. exists p. split; [assumption|]. now apply Placement_eqb_eq.
  - intros (q & Hq & E). apply Placement_eqb_eq in E. now subst.
Qed.

(** C8 (as stated). It is not so that both placement literals are used in
    the notebook's type declarations: no declaration uses the server
    literal. *)
Lemma declared_types_not_both_literals :
  ~ (In CLIENTS (flat_map placements declared_types) /\
     In SERVER (flat_map placements declared_types)).
Proof.
  intros [_ H]. apply In_existsb in H. vm_compute in H. discriminate.
Qed.

(** C8 (amended). Every placement tag in a type declared in the notebook is
    one of the two literals, in fact always the clients one; a declared
    type that carries placements is built by the federated-type
    constructor, with or without the all-equal flag, over a member that is
    a type of data without a placement of its own, never a computation
    type; the clients literal is used in the declarations and the server
    literal is not: it arises in the result type that tff.federated_mean
    gives, as in the signature of compute_average_temperature. *)
Theorem declared_placements :
  Forall (fun t =>
            Forall (fun p => p = CLIENTS \/ p = SERVER) (placements t) /\
            Forall (fun p => p = CLIENTS) (placements t) /\
            data_type t = true /\
            (placements t = [] \/
             exists member placement all_equal,
               t = FederatedType member placement all_equal /\
               data_type member = true /\
               placements member = []))
         declared_types /\
  In CLIENTS (flat_map placements declared_types) /\
  ~ In SERVER (flat_map placements declared_types) /\
  placed temperature_type = Some (tf_float32, CLIENTS, false) /\
  placed hyperparameter_type = Some (tf_float32, CLIENTS, true) /\
  placed model_parameters = Some (linear_regression_type, CLIENTS, true) /\
  compute_average_temperature_type_signature
  = Some (FunctionType (Some (FederatedType tf_float32 CLIENTS false))
                       (FederatedType tf_float32 SERVER true)).
Proof.
  split; [|split; [|split]].
  - unfold declared_types.
    repeat (apply Forall_cons; [|]); try apply Forall_nil.
    all: split; [simpl; repeat constructor; auto|].
    all: split; [simpl; repeat constructor|].
    all: split; [reflexivity|].
    all: first [ left; reflexivity
               | right; do 3 eexists; repeat split; reflexivity ].
  - apply In_existsb. reflexivity.
  - intros H. apply In_existsb in H. vm_compute in H. discriminate.
  - repeat split.
Qed.

End TypeSystemFacts.

(** * Part III: further properties of the computations *)


(** ** Counting and averaging one sequence *)

Section LocalSequence.
Local Open Scope Qc_scope.

Lemma Qc_of_nat_inj (n m : nat) : Qc_of_nat n = Qc_of_nat m -> n = m.
Proof.
  unfold Qc_of_nat. intros H. apply Q2Qc_eq_iff in H.
  unfold Qeq in H. simpl in H. lia.
Qed.

Lemma Qc_sum_Permutation (l l' : list Qc) :
  Permutation l l' -> Qc_sum l = Qc_sum l'.
Proof.
  induction 1 as [|x l l' _ IH|x y l|l l' l'' _ IH1 _ IH2]; simpl.
  - reflexivity.
  - now rewrite IH.
  - ring.
  - congruence.
Qed.

Lemma Qc_sum_bounds (lo hi : Qc) (l : list Qc) :
  Forall (fun x => lo <= x /\ x <= hi) l ->
  lo * Qc_of_nat (length l) <= Qc_sum l /\
  Qc_sum l <= hi * Qc_of_nat (length l).
Proof.
  induction 1 as [|x l [Hlo Hhi] _ [IHlo IHhi]].
  - simpl. rewrite Qc_of_nat_0, !Qcmult_0_r. split; apply Qcle_refl.
  - simpl length. rewrite Qc_of_nat_S, !Qcmult_plus_distr_r, !Qcmult_1_r.
    simpl Qc_sum. split.
    + rewrite (Qcplus_comm (lo * _)). now apply Qcplus_le_compat.
    + rewrite (Qcplus_comm (hi * _)). now apply Qcplus_le_compat.
Qed.

Lemma Qc_quotient_bounds (lo hi s n : Qc) :
  0 < n -> lo * n <= s -> s <= hi * n -> lo <= s / n /\ s / n <= hi.
Proof.
  intros Hn Hlo Hhi.
  assert (Hne : n <> 0).
  { intros E. rewrite E in Hn. revert Hn. apply Qcle_not_lt, Qcle_refl. }
  assert (E : s / n * n = s).
  { rewrite Qcmult_comm. now apply Qcmult_div_r. }
  split; apply Qcmult_lt_0_le_reg_r with (z := n); try assumption;
    now rewrite E.
Qed.

Lemma arithmetic_mean_bounds (lo hi : Qc) (l : list Qc) :
  l <> [] ->
  Forall (fun x => lo <= x /\ x <= hi) l ->
  lo <= arithmetic_mean l /\ arithmetic_mean l <= hi.
Proof.
  intros Hne H. destruct (Qc_sum_bounds H) as [Hlo Hhi].
  apply Qc_quotient_bounds; try assumption.
  apply Qc_of_nat_pos. destruct l; [contradiction|simpl; lia].
Qed.

Lemma compute_number_obs_float (temperatures : list float) :
  compute_number_obs (M := result) temperatures
  = inr (finite (Qc_of_nat (length temperatures))).
Proof.
  unfold compute_number_obs. cbn [reduce reference]. unfold ref_reduce.
  change (constant (M := result) (T := float) 0) with (finite 0).
  change (constant (M := result) (T := float) 1) with (finite 1).
  change (add (M := result) (T := float)) with float_add.
  rewrite float_reduce_count, Qcplus_0_l. reflexivity.
Qed.

(** X1. In exact arithmetic compute_number_obs returns, for every sequence
    (the empty one and those with infinities or nan included), the number
    of its elements as a finite value; it never fails, and two sequences get
    the same result exactly when they are equally long. *)
Theorem compute_number_obs_counts (temperatures temperatures' : list float) :
  compute_number_obs (M := result) temperatures
  = inr (finite (Qc_of_nat (length temperatures))) /\
  (compute_number_obs (M := result) temperatures
   = compute_number_obs (M := result) temperatures' <->
   length temperatures = length temperatures').
Proof.
  rewrite !compute_number_obs_float. split; [reflexivity|]. split.
  - intros H. apply Qc_of_nat_inj. congruence.
  - intros H. now rewrite H.
Qed.

(** X2. When every reading of a non-empty sequence lies between two bounds,
    compute_local_average returns a value between the same bounds. *)
Theorem compute_local_average_within_bounds (lo hi : Qc) (temperatures : list Qc) :
  temperatures <> [] ->
  Forall (fun x => lo <= x /\ x <= hi) temperatures ->
  exists average : Qc,
    compute_local_average (M := result) temperatures = inr average /\
    lo <= average /\ average <= hi.
Proof.
  intros Hne H. exists (arithmetic_mean temperatures).
  split; [now apply compute_local_average_ok|].
  now apply arithmetic_mean_bounds.
Qed.

Lemma pooled_average_Permutation (ls ls' : list (list Qc)) :
  Permutation ls ls' ->
  compute_local_average (M := result) (concat ls)
  = compute_local_average (M := result) (concat ls').
Proof.
  intros H. rewrite !compute_local_average_reduce.
  assert (Hp : Permutation (concat ls) (concat ls')).
  { induction H as [|x l l' _ IH|x y l|l l' l'' _ IH1 _ IH2]; simpl.
    - constructor.
    - now apply Permutation_app_head.
    - rewrite !app_assoc. apply Permutation_app_tail, Permutation_app_comm.
    - now transitivity (concat l'). }
  now rewrite (Qc_sum_Permutation Hp), (Permutation_length Hp).
Qed.

(** X3. compute_local_average does not depend on the order of the readings:
    on two sequences that are permutations of each other it returns the same
    result (the same failure when both are empty). *)
Theorem compute_local_average_Permutation (temperatures temperatures' : list Qc) :
  Permutation temperatures temperatures' ->
  compute_local_average (M := result) temperatures
  = compute_local_average (M := result) temperatures'.
Proof.
  intros H. rewrite !compute_local_average_reduce.
  now rewrite (Qc_sum_Permutation H), (Permutation_length H).
Qed.

Lemma float_fold_finite (readings : list Qc) (a : Qc) :
  fold_left float_add (map finite readings) (finite a)
  = finite (a + Qc_sum readings).
Proof.
  revert a. induction readings as [|x l IH]; intros a; simpl.
  - now rewrite Qcplus_0_r.
  - rewrite IH. f_equal. ring.
Qed.

Lemma float_sum_finite (readings : list Qc) :
  federated_sum (map finite readings) = finite (Qc_sum readings).
Proof.
  unfold federated_sum. cbn [of_Q sadd Scalar_float].
  change (Q2Qc 0%Q) with 0. rewrite float_fold_finite. f_equal. ring.
Qed.

Lemma float_products_finite (a b : list Qc) :
  map (fun vw : float * float => smul (fst vw) (snd vw))
      (combine (map finite a) (map finite b))
  = map finite (map (fun vw : Qc * Qc => fst vw * snd vw) (combine a b)).
Proof.
  revert b. induction a as [|x a IH]; intros [|y b]; try reflexivity.
  simpl. now rewrite IH.
Qed.

Lemma compute_average_temperature_finite (readings : list Qc) :
  readings <> [] ->
  compute_average_temperature (M := result) (map finite readings)
  = inr (finite (arithmetic_mean readings)).
Proof.
  intros H. unfold compute_average_temperature. cbn [federated_mean reference].
  rewrite ref_federated_mean_members
    by (destruct readings; [contradiction|discriminate]).
  cbv zeta. rewrite !length_map, Nat.eqb_refl.
  assert (Hw : map (fun _ : float => of_Q 1) (map finite readings)
               = map finite (map (fun _ => 1) readings)).
  { rewrite !map_map. reflexivity. }
  rewrite Hw, float_products_finite, !float_sum_finite.
  assert (Hones : Qc_sum (map (fun _ : Qc => 1) readings)
                  = Qc_of_nat (length readings)).
  { clear. induction readings as [|x l IH]; [reflexivity|].
    simpl length. rewrite Qc_of_nat_S. simpl. rewrite IH. ring. }
  assert (Hv : Qc_sum (map (fun vw : Qc * Qc => fst vw * snd vw)
                         (combine readings (map (fun _ : Qc => 1) readings)))
               = Qc_sum readings).
  { clear. induction readings as [|x l IH]; [reflexivity|].
    simpl. rewrite IH. ring. }
  rewrite Hones, Hv. unfold ref_truediv. cbn [sdiv Scalar_float].
  rewrite float_div_finite; [reflexivity|].
  apply Qc_of_nat_neq0. destruct readings; [contradiction|discriminate].
Qed.

(** X4. In exact arithmetic, on every non-empty list of finite readings the
    federated mean of one reading per client and the local average of the
    same readings held as one sequence return the same value, their
    arithmetic mean; on the empty input they differ: the federated
    computation raises a ValueError (there is no client), the local one
    returns nan. *)
Theorem compute_average_temperature_as_local_average (readings : list Qc) :
  (readings <> [] ->
   compute_average_temperature (M := result) (map finite readings)
   = compute_local_average (M := result) (map finite readings) /\
   compute_average_temperature (M := result) (map finite readings)
   = inr (finite (arithmetic_mean readings))) /\
  compute_average_temperature (M := result) (@nil float) = inl ValueError /\
  compute_local_average (M := result) (@nil float) = inr nan.
Proof.
  split; [|split; reflexivity].
  intros H. rewrite compute_average_temperature_finite by assumption.
  rewrite compute_local_average_finite.
  split; [|reflexivity]. destruct readings; [contradiction|reflexivity].
Qed.
End LocalSequence.

(** ** The global average over the clients *)

Section Clients.
Local Open Scope Qc_scope.

Lemma first_empty_client (sensor_readings : list (list Qc)) :
  In [] sensor_readings ->
  exists before after,
    sensor_readings = before ++ [] :: after /\
    Forall (fun l => l <> []) before.
Proof.
  induction sensor_readings as [|l ls IH]; [contradiction|].
  destruct l as [|x l].
  - intros _. exists [], ls. split; [reflexivity|constructor].
  - intros [H|H]; [discriminate|].
    destruct (IH H) as (before & after & -> & Hb).
    exists ((x :: l) :: before), after. split; [reflexivity|].
    constructor; [discriminate|assumption].
Qed.

Lemma empty_client_dec (sensor_readings : list (list Qc)) :
  Forall (fun l => l <> []) sensor_readings \/ In [] sensor_readings.
Proof.
  induction sensor_readings as [|l ls [IH|IH]].
  - left. constructor.
  - destruct l as [|x l].
    + right. left. reflexivity.
    + left. constructor; [discriminate|assumption].
  - right. right. assumption.
Qed.

Lemma no_empty_client (sensor_readings : list (list Qc)) :
  Forall (fun l => l <> []) sensor_readings -> ~ In [] sensor_readings.
Proof.
  intros H Hin. rewrite Forall_forall in H. now apply (H [] Hin).
Qed.

Lemma nonempty_of_In {A : Type} (a : A) (l : list A) : In a l -> l <> [].
Proof. intros H ->. contradiction. Qed.

Lemma federated_local_average_empty_client (sensor_readings : list (list Qc)) :
  In [] sensor_readings ->
  federated_local_average (M := result) sensor_readings
  = inl ZeroDivisionError.
Proof.
  intros H. destruct (first_empty_client _ H) as (before & after & E & Hb).
  unfold federated_local_average.
  rewrite ref_federated_map_members by (eapply nonempty_of_In; eassumption).
  apply mapM_inl.
  exists before, [], after. split; [exact E|]. split; [|reflexivity].
  apply Forall_impl with (2 := Hb). intros l Hl.
  exists (arithmetic_mean l). now apply compute_local_average_ok.
Qed.

Lemma federated_global_average_no_clients :
  federated_global_average (M := result) (@nil (list Qc)) = inl ValueError.
Proof. reflexivity. Qed.

Lemma federated_global_average_empty_client (sensor_readings : list (list Qc)) :
  In [] sensor_readings ->
  federated_global_average (M := result) sensor_readings
  = inl ZeroDivisionError.
Proof.
  intros H. unfold federated_global_average.
  rewrite federated_number_obs_ok by (eapply nonempty_of_In; eassumption).
  rewrite federated_local_average_empty_client by assumption.
  reflexivity.
Qed.

(* the global average is the local average of all the observations pooled *)
Lemma federated_global_average_pooled (sensor_readings : list (list Qc)) :
  sensor_readings <> [] ->
  Forall (fun l => l <> []) sensor_readings ->
  federated_global_average (M := result) sensor_readings
  = compute_local_average (M := result) (concat sensor_readings).
Proof.
  intros Hne Hall.
  rewrite federated_global_average_weighted by assumption.
  unfold weighted_mean.
  rewrite sum_weighted_averages, sum_observations by assumption.
  symmetry. apply compute_local_average_ok.
  destruct sensor_readings as [|l ls]; [contradiction|].
  inversion Hall; subst. destruct l; [contradiction|discriminate].
Qed.

Lemma federated_global_average_inr (sensor_readings : list (list Qc)) (m : Qc) :
  federated_global_average (M := result) sensor_readings = inr m ->
  sensor_readings <> [] /\
  Forall (fun l => l <> []) sensor_readings /\
  concat sensor_readings <> [] /\
  m = arithmetic_mean (concat sensor_readings).
Proof.
  intros H.
  assert (Hne : sensor_readings <> []).
  { intros E. rewrite E in H. discriminate. }
  destruct (empty_client_dec sensor_readings) as [Hall|Hin].
  - assert (Hc : concat sensor_readings <> []).
    { destruct sensor_readings as [|l ls]; [contradiction|].
      inversion Hall; subst. destruct l; [contradiction|discriminate]. }
    repeat split; try assumption.
    rewrite federated_global_average_pooled, compute_local_average_ok in H
      by assumption.
    congruence.
  - rewrite federated_global_average_empty_client in H by assumption.
    discriminate.
Qed.

(** X6. federated_global_average treats the clients as a multi-set: on two
    lists of client sequences that are permutations of each other it returns
    the same result, value or failure. *)
Theorem federated_global_average_Permutation
    (sensor_readings sensor_readings' : list (list Qc)) :
  Permutation sensor_readings sensor_readings' ->
  federated_global_average (M := result) sensor_readings
  = federated_global_average (M := result) sensor_readings'.
Proof.
  intros H.
  destruct sensor_readings as [|l ls].
  { apply Permutation_nil in H. now subst. }
  assert (Hne' : sensor_readings' <> []).
  { intros ->. apply Permutation_sym, Permutation_nil in H. discriminate. }
  destruct (empty_client_dec (l :: ls)) as [Hall|Hin].
  - assert (Hall' : Forall (fun l : list Qc => l <> []) sensor_readings').
    { rewrite Forall_forall in *. intros l' Hl'. apply Hall.
      apply Permutation_in with (1 := Permutation_sym H). assumption. }
    rewrite !federated_global_average_pooled by (assumption || discriminate).
    apply pooled_average_Permutation. assumption.
  - rewrite !federated_global_average_empty_client; [reflexivity| |].
    + apply Permutation_in with (1 := H). assumption.
    + assumption.
Qed.
End Clients.

(** ** Pooling, equal weights, bounds and changes of unit *)

Section GlobalAverageAlgebra.
Local Open Scope Qc_scope.

Lemma federated_local_average_inr
    (sensor_readings : list (list Qc)) (averages : list Qc) :
  federated_local_average (M := result) sensor_readings = inr averages ->
  Forall (fun l => l <> []) sensor_readings /\
  averages = map arithmetic_mean sensor_readings.
Proof.
  intros H.
  assert (Hne : sensor_readings <> []).
  { intros E. rewrite E in H. discriminate. }
  destruct (empty_client_dec sensor_readings) as [Hall|Hin].
  - split; [assumption|].
    rewrite federated_local_average_ok in H by assumption. congruence.
  - rewrite federated_local_average_empty_client in H by assumption.
    discriminate.
Qed.

Lemma equal_weights (f : list Qc -> Qc) (N : Qc) (ls : list (list Qc)) :
  (forall l, In l ls -> observations l = N) ->
  Qc_sum (map (fun vw => fst vw * snd vw)
            (combine (map f ls) (map observations ls)))
  = Qc_sum (map f ls) * N /\
  Qc_sum (map observations ls) = Qc_of_nat (length ls) * N.
Proof.
  induction ls as [|l ls IH]; intros H.
  - simpl. rewrite Qc_of_nat_0. split; ring.
  - destruct IH as [IH1 IH2]; [intros l' Hl'; apply H; now right|].
    simpl length. rewrite Qc_of_nat_S. simpl.
    rewrite IH1, IH2, (H l) by now left. split; ring.
Qed.

Lemma Qc_sum_affine (a b : Qc) (l : list Qc) :
  Qc_sum (map (fun x => a * x + b) l)
  = a * Qc_sum l + b * Qc_of_nat (length l).
Proof.
  induction l as [|x l IH].
  - simpl. rewrite Qc_of_nat_0. ring.
  - simpl length. rewrite Qc_of_nat_S. simpl. rewrite IH. ring.
Qed.

Lemma arithmetic_mean_affine (a b : Qc) (l : list Qc) :
  l <> [] ->
  arithmetic_mean (map (fun x => a * x + b) l) = a * arithmetic_mean l + b.
Proof.
  intros H. unfold arithmetic_mean. rewrite Qc_sum_affine, length_map.
  assert (Hn : Qc_of_nat (length l) <> 0).
  { apply Qc_of_nat_neq0. destruct l; [contradiction|discriminate]. }
  field. exact Hn.
Qed.

(** X8. In exact arithmetic, when all clients hold the same number of
    observations the weights make no difference: federated_global_average
    returns what the unweighted compute_average_temperature returns on the
    clients' local averages. *)
Theorem federated_global_average_equal_sizes
    (n : nat) (sensor_readings : list (list Qc)) (averages : list Qc) :
  (forall l, In l sensor_readings -> length l = n) ->
  federated_local_average (M := result) sensor_readings = inr averages ->
  federated_global_average (M := result) sensor_readings
  = compute_average_temperature (M := result) averages.
Proof.
  intros Hn Havg.
  destruct (federated_local_average_inr _ Havg) as [Hall ->].
  destruct sensor_readings as [|l ls]; [discriminate|].
  rewrite federated_global_average_weighted by (assumption || discriminate).
  unfold compute_average_temperature. cbn [federated_mean reference].
  rewrite ref_federated_mean_unweighted by discriminate.
  apply f_equal. unfold weighted_mean.
  destruct (@equal_weights arithmetic_mean (Qc_of_nat n) (l :: ls)) as [E1 E2].
  { intros l' Hl'. unfold observations. now rewrite (Hn l' Hl'). }
  rewrite E1, E2.
  change (arithmetic_mean l :: map arithmetic_mean ls)
    with (map arithmetic_mean (l :: ls)).
  assert (Hlen : length (map arithmetic_mean (l :: ls)) = length (l :: ls))
    by apply length_map.
  set (A := map arithmetic_mean (l :: ls)) in *.
  unfold arithmetic_mean. rewrite Hlen.
  assert (Hk : Qc_of_nat (length (l :: ls)) <> 0)
    by (apply Qc_of_nat_neq0; discriminate).
  assert (HN : Qc_of_nat n <> 0).
  { apply Qc_of_nat_neq0. rewrite <- (Hn l) by now left.
    inversion Hall; subst. destruct l; [contradiction|discriminate]. }
  field. split; assumption.
Qed.

(** X9. Averaging commutes with a change of unit: when the readings x are
    replaced by a * x + b (Celsius to Fahrenheit, say), a local average m
    becomes a * m + b, and so does a global average. *)
Theorem averages_commute_with_change_of_unit (a b : Qc) :
  (forall (temperatures : list Qc) (m : Qc),
      compute_local_average (M := result) temperatures = inr m ->
      compute_local_average (M := result)
        (map (fun x => a * x + b) temperatures)
      = inr (a * m + b)) /\
  (forall (sensor_readings : list (list Qc)) (m : Qc),
      federated_global_average (M := result) sensor_readings = inr m ->
      federated_global_average (M := result)
        (map (map (fun x => a * x + b)) sensor_readings)
      = inr (a * m + b)).
Proof.
  assert (Hlocal : forall (l : list Qc) (m : Qc),
             compute_local_average (M := result) l = inr m ->
             compute_local_average (M := result) (map (fun x => a * x + b) l)
             = inr (a * m + b)).
  { intros l m H. destruct l as [|x l]; [discriminate|].
    rewrite compute_local_average_ok in H by discriminate.
    rewrite compute_local_average_ok by discriminate.
    rewrite arithmetic_mean_affine by discriminate. congruence. }
  split; [exact Hlocal|].
  intros ls m H.
  destruct (federated_global_average_inr _ H) as (Hne & Hall & Hc & ->).
  rewrite federated_global_average_pooled.
  - rewrite <- concat_map. apply Hlocal.
    now apply compute_local_average_ok.
  - destruct ls; [contradiction|discriminate].
  - apply Forall_map. apply Forall_impl with (2 := Hall).
    intros l Hl. destruct l; [contradiction|discriminate].
Qed.

(** X10. In exact arithmetic, when there is a client, no client holds an
    empty sequence and every observation of every client lies between two
    bounds, federated_global_average returns a value between the same
    bounds. *)
Theorem federated_global_average_within_bounds
    (lo hi : Qc) (sensor_readings : list (list Qc)) :
  sensor_readings <> [] ->
  Forall (fun l => l <> [] /\ Forall (fun x => lo <= x /\ x <= hi) l)
         sensor_readings ->
  exists average : Qc,
    federated_global_average (M := result) sensor_readings = inr average /\
    lo <= average /\ average <= hi.
Proof.
  intros Hne H.
  assert (Hall : Forall (fun l : list Qc => l <> []) sensor_readings).
  { apply Forall_impl with (2 := H). now intros l [Hl _]. }
  assert (Hc : concat sensor_readings <> []).
  { destruct sensor_readings as [|l ls]; [contradiction|].
    inversion Hall; subst. destruct l; [contradiction|discriminate]. }
  exists (arithmetic_mean (concat sensor_readings)). split.
  - rewrite federated_global_average_pooled by assumption.
    now apply compute_local_average_ok.
  - apply arithmetic_mean_bounds; [assumption|].
    apply Forall_concat. apply Forall_impl with (2 := H). now intros l [_ Hl].
Qed.
End GlobalAverageAlgebra.

(** ** More on top-1 compression *)

Section Top1Algebra.
Local Open Scope Qc_scope.

Lemma top_1_compression_inl (gradients : list Qc) (e : error) :
  top_1_compression (M := result) gradients = inl e ->
  gradients = [] /\ e = InvalidArgumentError.
Proof.
  intros H. destruct gradients as [|x l].
  - split; [reflexivity|]. cbv in H. congruence.
  - destruct (@top_1_compression_ok (x :: l)) as (i & gi & _ & _ & _ & E);
      [discriminate|].
    rewrite E in H. discriminate.
Qed.

Lemma top_1_compression_inr (gradients compressed : list Qc) :
  top_1_compression (M := result) gradients = inr compressed ->
  gradients <> [] /\
  exists i gi,
    nth_error gradients i = Some gi /\
    (forall j x, nth_error gradients j = Some x -> Qcabs x <= Qcabs gi) /\
    (forall j x, (j < i)%nat -> nth_error gradients j = Some x ->
                 Qcabs x < Qcabs gi) /\
    compressed = list_update i gi (map (fun _ => 0) gradients).
Proof.
  intros H.
  assert (Hne : gradients <> []).
  { intros ->. discriminate. }
  split; [assumption|].
  destruct (top_1_compression_ok Hne) as (i & gi & Hgi & Hmax & Hfirst & E).
  exists i, gi. repeat (split; [assumption|]). congruence.
Qed.

Lemma zeros_same_length (l l' : list Qc) :
  length l = length l' ->
  map (fun _ : Qc => 0) l = map (fun _ : Qc => 0) l'.
Proof.
  revert l'. induction l as [|x l IH]; intros [|y l'] H; simpl in *;
    try discriminate; [reflexivity|].
  f_equal. apply IH. lia.
Qed.

Lemma list_update_zeros (i : nat) (l : list Qc) :
  list_update i 0 (map (fun _ : Qc => 0) l) = map (fun _ : Qc => 0) l.
Proof.
  revert i. induction l as [|x l IH]; intros [|i]; simpl; try reflexivity.
  now rewrite IH.
Qed.

Lemma map_list_update (f : Qc -> Qc) (i : nat) (v : Qc) (l : list Qc) :
  map f (list_update i v l) = list_update i (f v) (map f l).
Proof.
  revert i. induction l as [|x l IH]; intros [|i]; simpl; try reflexivity.
  now rewrite IH.
Qed.

Lemma nth_error_list_update_eq (i : nat) (v : Qc) (l : list Qc) :
  (i < length l)%nat -> nth_error (list_update i v l) i = Some v.
Proof.
  revert i. induction l as [|x l IH]; intros [|i] H; simpl in *;
    try lia; [reflexivity|].
  apply IH. lia.
Qed.

Lemma nth_error_zeros (i : nat) (v : Qc) (l : list Qc) :
  nth_error (map (fun _ : Qc => 0) l) i = Some v -> v = 0.
Proof.
  rewrite nth_error_map. destruct (nth_error l i); simpl; congruence.
Qed.

Lemma Qcabs_le_0 (x : Qc) : Qcabs x <= Qcabs 0 -> x = 0.
Proof.
  intros H. apply Qcabs_null. apply Qcle_antisym; [exact H|apply Qcabs_nonneg].
Qed.

(* the index that the compression keeps is determined by the vector *)
Lemma first_largest_unique (g : list Qc) (i i' : nat) (gi gi' : Qc) :
  nth_error g i = Some gi ->
  nth_error g i' = Some gi' ->
  (forall j x, nth_error g j = Some x -> Qcabs x <= Qcabs gi) ->
  (forall j x, (j < i)%nat -> nth_error g j = Some x -> Qcabs x < Qcabs gi) ->
  (forall j x, nth_error g j = Some x -> Qcabs x <= Qcabs gi') ->
  (forall j x, (j < i')%nat -> nth_error g j = Some x -> Qcabs x < Qcabs gi') ->
  i = i'.
Proof.
  intros Hi Hi' Hmax Hfirst Hmax' Hfirst'.
  destruct (Nat.lt_trichotomy i i') as [Hlt|[Heq|Hgt]]; [|assumption|].
  - exfalso. apply (Qclt_not_le _ _ (Hfirst' i gi Hlt Hi)). now apply (Hmax i').
  - exfalso. apply (Qclt_not_le _ _ (Hfirst i' gi' Hgt Hi')). now apply (Hmax' i).
Qed.

(** X11. top_1_compression fails exactly on the empty vector, and then with
    an invalid-argument error (top_k finds no first entry); on every other
    vector it returns. *)
Theorem top_1_compression_fails_iff (gradients : list Qc) (e : error) :
  top_1_compression (M := result) gradients = inl e <->
  gradients = [] /\ e = InvalidArgumentError.
Proof.
  split.
  - apply top_1_compression_inl.
  - intros [-> ->]. reflexivity.
Qed.

(** X12. top_1_compression is idempotent: compressing a vector that it
    returned gives that vector back. *)
Theorem top_1_compression_idempotent (gradients compressed : list Qc) :
  top_1_compression (M := result) gradients = inr compressed ->
  top_1_compression (M := result) compressed = inr compressed.
Proof.
  intros H.
  destruct (top_1_compression_inr gradients H) as (Hne & i & gi & Hgi & _ & _ & E).
  assert (Hi : (i < length gradients)%nat)
    by (apply nth_error_Some; congruence).
  assert (Hlen : length compressed = length gradients)
    by (rewrite E; now rewrite list_update_length, length_map).
  assert (Hne' : compressed <> []).
  { intros E'. rewrite E' in Hlen. simpl in Hlen. lia. }
  destruct (top_1_compression_ok Hne')
    as (i' & gi' & Hgi' & Hmax' & _ & E').
  rewrite E'. f_equal.
  rewrite (zeros_same_length _ _ Hlen).
  assert (Hv : gi' = nth i' compressed 0) by (symmetry; now apply nth_error_nth).
  assert (Hci : nth_error compressed i = Some gi).
  { rewrite E. apply nth_error_list_update_eq. now rewrite length_map. }
  destruct (Nat.eq_dec i' i) as [->|Hii].
  - rewrite Hgi' in Hci. inversion Hci; subst gi'. now symmetry.
  - assert (Hz : gi' = 0).
    { rewrite Hv, E, nth_list_update_neq by auto. apply nth_zeros. }
    assert (Hgi0 : gi = 0).
    { apply Qcabs_le_0. rewrite <- Hz. now apply (Hmax' i). }
    rewrite Hz, E, Hgi0. now rewrite !list_update_zeros.
Qed.
End Top1Algebra.

Section Top1Scaling.
Local Open Scope Qc_scope.

Lemma Qcabs_pos_neq0 (c : Qc) : c <> 0 -> 0 < Qcabs c.
Proof.
  intros H. destruct (Qcle_lt_or_eq _ _ (Qcabs_nonneg c)) as [Hlt|Heq];
    [assumption|].
  exfalso. apply H. apply Qcabs_null. now symmetry.
Qed.

Lemma Qcabs_scale_le (c x y : Qc) :
  c <> 0 -> (Qcabs x <= Qcabs y <-> Qcabs (c * x) <= Qcabs (c * y)).
Proof.
  intros Hc. rewrite !Qcabs_Qcmult, !(Qcmult_comm (Qcabs c)). split.
  - intros H. apply Qcmult_le_compat_r; [assumption|apply Qcabs_nonneg].
  - apply Qcmult_lt_0_le_reg_r. now apply Qcabs_pos_neq0.
Qed.

Lemma Qcabs_scale_lt (c x y : Qc) :
  c <> 0 -> (Qcabs x < Qcabs y <-> Qcabs (c * x) < Qcabs (c * y)).
Proof.
  intros Hc. split; intros H; apply Qcnot_le_lt; intros Hle.
  - apply (proj2 (Qcabs_scale_le y x Hc)) in Hle.
    exact (Qcle_not_lt _ _ Hle H).
  - apply (proj1 (Qcabs_scale_le y x Hc)) in Hle.
    exact (Qcle_not_lt _ _ Hle H).
Qed.

(** X13. top_1_compression commutes with rescaling: when it returns a
    vector on some gradients, then on the gradients all multiplied by a
    factor c it returns that vector multiplied by c. *)
Theorem top_1_compression_scales (c : Qc) (gradients compressed : list Qc) :
  top_1_compression (M := result) gradients = inr compressed ->
  top_1_compression (M := result) (map (Qcmult c) gradients)
  = inr (map (Qcmult c) compressed).
Proof.
  intros H.
  destruct (top_1_compression_inr gradients H)
    as (Hne & i & gi & Hgi & Hmax & Hfirst & E).
  assert (Hne' : map (Qcmult c) gradients <> [])
    by (destruct gradients; [contradiction|discriminate]).
  destruct (top_1_compression_ok Hne')
    as (i' & gi' & Hgi' & Hmax' & Hfirst' & E').
  rewrite E', E, map_list_update. f_equal.
  assert (Hz : map (Qcmult c) (map (fun _ : Qc => 0) gradients)
               = map (fun _ : Qc => 0) (map (Qcmult c) gradients)).
  { rewrite !map_map. apply map_ext. intros x. apply Qcmult_0_r. }
  rewrite Hz. clear Hz.
  rewrite nth_error_map in Hgi'.
  destruct (nth_error gradients i') as [y|] eqn:Hy; [|discriminate].
  simpl in Hgi'. inversion Hgi'; subst gi'. clear Hgi'.
  destruct (Qc_eq_dec c 0) as [->|Hc].
  - rewrite !Qcmult_0_l. 
    assert (Hzz : map (Qcmult 0) gradients = map (fun _ : Qc => 0) gradients).
    { apply map_ext. intros x. apply Qcmult_0_l. }
    rewrite Hzz, !list_update_zeros. reflexivity.
  - assert (Hii : i = i').
    { apply (@first_largest_unique gradients i i' gi y); try assumption.
      - intros j x Hx. apply (Qcabs_scale_le x y Hc). apply (Hmax' j).
        rewrite nth_error_map, Hx. reflexivity.
      - intros j x Hj Hx. apply (Qcabs_scale_lt x y Hc). apply (Hfirst' j);
          [assumption|]. rewrite nth_error_map, Hx. reflexivity. }
    subst i'. congruence.
Qed.
End Top1Scaling.

(** ** More on the federated compression *)

Section FederatedCompression.
Local Open Scope Qc_scope.

(** X14. federated_top_1_compression fails exactly when there is no client,
    with a ValueError, or some client's vector is empty, with an
    invalid-argument error; when it returns, every client gets back a
    vector as long as the one it sent. *)
Theorem federated_top_1_compression_shapes (gradients : list (list Qc)) :
  (forall e : error,
      federated_top_1_compression (M := result) gradients = inl e <->
      (gradients = [] /\ e = ValueError) \/
      (In [] gradients /\ e = InvalidArgumentError)) /\
  (forall compressed : list (list Qc),
      federated_top_1_compression (M := result) gradients = inr compressed ->
      gradients <> [] /\
      Forall2 (fun g c => length c = length g) gradients compressed).
Proof.
  destruct gradients as [|g0 gs].
  { split.
    - intros e. split.
      + intros H. left. split; [reflexivity|]. cbv in H. congruence.
      + intros [[_ ->]|[[] _]]. reflexivity.
    - intros compressed H. discriminate. }
  unfold federated_top_1_compression.
  rewrite ref_federated_map_members by discriminate. split.
  - intros e. rewrite mapM_inl. split.
    + intros (before & g & after & E & _ & Hg). right.
      apply top_1_compression_inl in Hg. destruct Hg as [-> ->].
      split; [|reflexivity]. rewrite E. apply in_or_app. right. now left.
    + intros [[H _]|[Hin ->]]; [discriminate|].
      destruct (first_empty_client _ Hin) as (before & after & E & Hb).
      exists before, [], after. split; [exact E|]. split; [|reflexivity].
      apply Forall_impl with (2 := Hb). intros g Hg.
      destruct (top_1_compression_ok Hg) as (i & gi & _ & _ & _ & E').
      eexists. exact E'.
  - intros compressed H. split; [discriminate|]. apply mapM_inr in H.
    induction H as [|g c gs' cs Hg _ IH]; constructor; [|assumption].
    destruct (top_1_compression_inr g Hg) as (_ & i & gi & _ & _ & _ & ->).
    now rewrite list_update_length, length_map.
Qed.
End FederatedCompression.

(** ** The federated computations on sequences, with nan *)

Section FederatedSequences.
Local Open Scope Qc_scope.

Lemma float_fold_nan (l : list float) : fold_left float_add l nan = nan.
Proof. induction l as [|x l IH]; [reflexivity|]. simpl. exact IH. Qed.

Lemma float_add_nan_r (x : float) : float_add x nan = nan.
Proof. destruct x; reflexivity. Qed.

Lemma float_sum_nan (l : list float) :
  In nan l -> federated_sum l = nan.
Proof.
  unfold federated_sum. cbn [of_Q sadd Scalar_float].
  generalize (finite (Q2Qc 0%Q)). induction l as [|x l IH]; intros a H.
  - contradiction.
  - simpl. destruct H as [->|H].
    + rewrite float_add_nan_r. apply float_fold_nan.
    + now apply IH.
Qed.

Lemma federated_number_obs_float (sensor_readings : list (list float)) :
  sensor_readings <> [] ->
  federated_number_obs (M := result) sensor_readings
  = inr (map (fun l => finite (Qc_of_nat (length l))) sensor_readings).
Proof.
  intros H. unfold federated_number_obs.
  rewrite ref_federated_map_members by assumption. apply mapM_map.
  intros l _. apply compute_number_obs_float.
Qed.

Lemma federated_local_average_finite (readings : list (list Qc)) :
  readings <> [] ->
  federated_local_average (M := result) (map (map finite) readings)
  = inr (map average_value readings).
Proof.
  intros H. unfold federated_local_average.
  rewrite ref_federated_map_members
    by (destruct readings; [contradiction|discriminate]).
  apply mapM_inr. clear H.
  induction readings as [|l ls IH]; simpl; constructor; [|exact IH].
  apply compute_local_average_finite.
Qed.

Lemma counts_finite (readings : list (list Qc)) :
  map (fun l : list float => finite (Qc_of_nat (length l)))
      (map (map finite) readings)
  = map finite (map observations readings).
Proof.
  rewrite !map_map. apply map_ext. intros l. unfold observations.
  now rewrite length_map.
Qed.

Lemma averages_finite (readings : list (list Qc)) :
  Forall (fun l => l <> []) readings ->
  map average_value readings = map finite (map arithmetic_mean readings).
Proof.
  induction 1 as [|l ls Hl _ IH]; [reflexivity|].
  simpl. rewrite IH. destruct l; [contradiction|reflexivity].
Qed.

Lemma weighted_nan (readings : list (list Qc)) :
  In [] readings ->
  In nan (map (fun vw : float * float => smul (fst vw) (snd vw))
            (combine (map average_value readings)
                     (map finite (map observations readings)))).
Proof.
  induction readings as [|l ls IH]; [contradiction|].
  intros [->|H]; simpl.
  - left. reflexivity.
  - right. now apply IH.
Qed.

(* the three outcomes of the global average on finite readings *)
Lemma federated_global_average_finite (readings : list (list Qc)) :
  readings <> [] ->
  federated_global_average (M := result) (map (map finite) readings)
  = inr (if existsb (fun l => match l with [] => true | _ => false end) readings
         then nan
         else finite (arithmetic_mean (concat readings))).
Proof.
  intros Hne.
  assert (Hne' : map (map finite) readings <> [])
    by (destruct readings; [contradiction|discriminate]).
  unfold federated_global_average.
  rewrite federated_number_obs_float by assumption.
  rewrite federated_local_average_finite by assumption.
  cbn [bind Monad_either federated_mean reference].
  rewrite counts_finite.
  rewrite ref_federated_mean_members
    by (destruct readings; [contradiction|discriminate]).
  cbv zeta. rewrite !length_map, Nat.eqb_refl.
  unfold ref_truediv. cbn [sdiv Scalar_float].
  destruct (existsb _ readings) eqn:E.
  - apply existsb_exists in E. destruct E as (l & Hl & El).
    destruct l; [|discriminate].
    rewrite (float_sum_nan _ (weighted_nan _ Hl)). reflexivity.
  - assert (Hall : Forall (fun l : list Qc => l <> []) readings).
    { apply Forall_forall. intros l Hl ->.
      assert (Ht : existsb (fun l : list Qc =>
                              match l with [] => true | _ => false end)
                           readings = true)
        by (apply existsb_exists; exists []; auto).
      congruence. }
    rewrite averages_finite, float_products_finite, !float_sum_finite
      by assumption.
    rewrite sum_weighted_averages, sum_observations by assumption.
    rewrite float_div_finite; [reflexivity|].
    apply Qc_of_nat_neq0.
    destruct readings as [|l ls]; [contradiction|].
    inversion Hall; subst. destruct l; [contradiction|discriminate].
Qed.

Lemma has_empty_client (readings : list (list Qc)) :
  existsb (fun l => match l with [] => true | _ => false end) readings = true
  <-> In [] readings.
Proof.
  rewrite existsb_exists. split.
  - intros (l & Hl & E). destruct l; [assumption|discriminate].
  - intros H. exists []. auto.
Qed.

(** X5. On finite readings, federated_global_average fails exactly when
    there is no client, with a ValueError; it raises nothing else: when
    some client holds an empty sequence it returns nan, and otherwise (exact
    arithmetic) the arithmetic mean of all the observations. *)
Theorem federated_global_average_fails_iff (readings : list (list Qc)) :
  (forall e : error,
      federated_global_average (M := result) (map (map finite) readings)
      = inl e <->
      readings = [] /\ e = ValueError) /\
  (readings <> [] -> In [] readings ->
   federated_global_average (M := result) (map (map finite) readings)
   = inr nan) /\
  (readings <> [] -> ~ In [] readings ->
   federated_global_average (M := result) (map (map finite) readings)
   = inr (finite (arithmetic_mean (concat readings)))).
Proof.
  split; [|split].
  - intros e. destruct readings as [|l ls].
    + split.
      * intros H. split; [reflexivity|]. cbv in H. congruence.
      * intros [_ ->]. reflexivity.
    + rewrite federated_global_average_finite by discriminate.
      split; [discriminate|]. intros [H _]. discriminate.
  - intros Hne Hin. rewrite federated_global_average_finite by assumption.
    apply has_empty_client in Hin. now rewrite Hin.
  - intros Hne Hin. rewrite federated_global_average_finite by assumption.
    destruct (existsb _ readings) eqn:E; [|reflexivity].
    apply has_empty_client in E. contradiction.
Qed.

(** X7. In exact arithmetic, when there is a client and no client holds an
    empty sequence, federated_global_average returns what
    compute_local_average returns on all the observations pooled into one
    sequence; and for a single client the global average is that client's
    local average, also when its sequence is empty, where both are nan. *)
Theorem federated_global_average_pools
    (readings : list (list Qc)) (temperatures : list Qc) :
  readings <> [] ->
  Forall (fun l => l <> []) readings ->
  federated_global_average (M := result) (map (map finite) readings)
  = compute_local_average (M := result) (map finite (concat readings)) /\
  federated_global_average (M := result) (map finite temperatures :: nil)
  = compute_local_average (M := result) (map finite temperatures).
Proof.
  intros Hne Hall. split.
  - rewrite federated_global_average_finite, compute_local_average_finite
      by assumption.
    destruct (existsb _ readings) eqn:E.
    + apply has_empty_client in E. rewrite Forall_forall in Hall.
      now destruct (Hall [] E).
    + destruct (concat readings) eqn:Ec; [|reflexivity].
      destruct readings as [|l ls]; [contradiction|].
      inversion Hall; subst. destruct l; [contradiction|discriminate].
  - change (map finite temperatures :: nil)
      with (map (map finite) (temperatures :: nil)).
    rewrite federated_global_average_finite, compute_local_average_finite
      by discriminate.
    destruct temperatures as [|x l]; [reflexivity|].
    simpl. now rewrite app_nil_r.
Qed.

(** X15. federated_number_obs fails exactly when there is no client, with a
    ValueError; otherwise, whatever the clients hold, it returns one weight
    per client, in the clients' order, each (in exact arithmetic) the number
    of observations of its client, zero for an empty sequence, and the
    weights add up to the number of all observations. *)
Theorem federated_number_obs_weights (sensor_readings : list (list float)) :
  (forall e : error,
      federated_number_obs (M := result) sensor_readings = inl e <->
      sensor_readings = [] /\ e = ValueError) /\
  (sensor_readings <> [] ->
   exists weights : list float,
     federated_number_obs (M := result) sensor_readings = inr weights /\
     length weights = length sensor_readings /\
     (forall (i : nat) (l : list float),
         nth_error sensor_readings i = Some l ->
         nth_error weights i = Some (finite (Qc_of_nat (length l)))) /\
     federated_sum weights
     = finite (Qc_of_nat (length (concat sensor_readings)))).
Proof.
  split.
  - intros e. destruct sensor_readings as [|l ls].
    + split.
      * intros H. split; [reflexivity|]. cbv in H. congruence.
      * intros [_ ->]. reflexivity.
    + rewrite federated_number_obs_float by discriminate.
      split; [discriminate|]. intros [H _]. discriminate.
  - intros Hne. eexists. split; [now apply federated_number_obs_float|].
    split; [apply length_map|]. split.
    + intros i l H. rewrite nth_error_map, H. reflexivity.
    + rewrite <- (map_map (fun l : list float => Qc_of_nat (length l)) finite).
      rewrite float_sum_finite. f_equal. clear Hne.
      induction sensor_readings as [|l ls IH]; [reflexivity|].
      simpl. rewrite length_app, Qc_of_nat_add, IH. reflexivity.
Qed.

(** X16. On finite readings, federated_local_average fails exactly when
    there is no client, with a ValueError; otherwise it returns one value
    per client, in the clients' order: (in exact arithmetic) the arithmetic
    mean of a non-empty sequence, and nan for an empty one, which stops
    nothing. *)
Theorem federated_local_average_means (readings : list (list Qc)) :
  (forall e : error,
      federated_local_average (M := result) (map (map finite) readings)
      = inl e <->
      readings = [] /\ e = ValueError) /\
  (readings <> [] ->
   exists averages : list float,
     federated_local_average (M := result) (map (map finite) readings)
     = inr averages /\
     length averages = length readings /\
     forall (i : nat) (l : list Qc),
       nth_error readings i = Some l ->
       nth_error averages i
       = Some (match l with
               | [] => nan
               | _ :: _ => finite (arithmetic_mean l)
               end)).
Proof.
  split.
  - intros e. destruct readings as [|l ls].
    + split.
      * intros H. split; [reflexivity|]. cbv in H. congruence.
      * intros [_ ->]. reflexivity.
    + rewrite federated_local_average_finite by discriminate.
      split; [discriminate|]. intros [H _]. discriminate.
  - intros Hne. exists (map average_value readings).
    split; [now apply federated_local_average_finite|].
    split; [apply length_map|].
    intros i l H. rewrite nth_error_map, H. reflexivity.
Qed.
End FederatedSequences.

(** ** The properties with a precondition, at concrete inputs *)

Ltac Qc_order :=
  unfold Qcle, Qclt, Qle, Qlt; vm_compute; first [reflexivity | discriminate].

Lemma local_average_between_68_and_72 :
  exists average : Qc,
    compute_local_average (M := result) (map literal [68.0; 72.0; 70.0]%Q)
    = inr average /\
    (literal 68 <= average)%Qc /\ (average <= literal 72)%Qc.
Proof.
  apply (@compute_local_average_within_bounds (literal 68) (literal 72)).
  - discriminate.
  - repeat constructor; Qc_order.
Defined.

Lemma local_average_of_swapped_readings :
  Permutation (map literal [68.0; 70.0]%Q) (map literal [70.0; 68.0]%Q) /\
  compute_local_average (M := result) (map literal [68.0; 70.0]%Q)
  = compute_local_average (M := result) (map literal [70.0; 68.0]%Q).
Proof.
  assert (H : Permutation (map literal [68.0; 70.0]%Q)
                          (map literal [70.0; 68.0]%Q))
    by apply perm_swap.
  exact (conj H (compute_local_average_Permutation H)).
Defined.

Lemma global_average_of_swapped_clients :
  Permutation (map (map literal) [[68.0; 70.0]; [71.0]]%Q)
              (map (map literal) [[71.0]; [68.0; 70.0]]%Q) /\
  federated_global_average (M := result)
    (map (map literal) [[68.0; 70.0]; [71.0]]%Q)
  = federated_global_average (M := result)
      (map (map literal) [[71.0]; [68.0; 70.0]]%Q).
Proof.
  assert (H : Permutation (map (map literal) [[68.0; 70.0]; [71.0]]%Q)
                          (map (map literal) [[71.0]; [68.0; 70.0]]%Q))
    by apply perm_swap.
  exact (conj H (federated_global_average_Permutation H)).
Defined.

Lemma global_average_pools_documented_readings :
  [[68.0; 70.0]; [71.0]]%Q <> [] /\
  Forall (fun l : list Qc => l <> [])
         (map (map literal) [[68.0; 70.0]; [71.0]]%Q) /\
  federated_global_average (M := result)
    (map (map finite) (map (map literal) [[68.0; 70.0]; [71.0]]%Q))
  = compute_local_average (M := result)
      (map finite (concat (map (map literal) [[68.0; 70.0]; [71.0]]%Q))) /\
  federated_global_average (M := result) (map finite [] :: nil)
  = compute_local_average (M := result) (map finite []).
Proof.
  assert (Hne : map (map literal) [[68.0; 70.0]; [71.0]]%Q <> [])
    by discriminate.
  assert (H : Forall (fun l : list Qc => l <> [])
                     (map (map literal) [[68.0; 70.0]; [71.0]]%Q))
    by (repeat constructor; discriminate).
  split; [discriminate|].
  exact (conj H (federated_global_average_pools [] Hne H)).
Defined.

Lemma global_average_of_two_pairs :
  let sensor_readings := map (map literal) [[68.0; 70.0]; [71.0; 73.0]]%Q in
  (forall l, In l sensor_readings -> length l = 2) /\
  federated_local_average (M := result) sensor_readings
  = inr (map arithmetic_mean sensor_readings) /\
  federated_global_average (M := result) sensor_readings
  = compute_average_temperature (M := result)
      (map arithmetic_mean sensor_readings).
Proof.
  intros sensor_readings.
  assert (Hn : forall l, In l sensor_readings -> length l = 2).
  { intros l [<-|[<-|[]]]; reflexivity. }
  assert (Ha : federated_local_average (M := result) sensor_readings
               = inr (map arithmetic_mean sensor_readings)).
  { apply federated_local_average_ok;
      [discriminate | repeat constructor; discriminate]. }
  exact (conj Hn (conj Ha
           (federated_global_average_equal_sizes sensor_readings Hn Ha))).
Defined.

Lemma global_average_between_68_and_72 :
  sensor_readings_example <> [] /\
  exists average : Qc,
    federated_global_average (M := result) sensor_readings_example
    = inr average /\
    (literal 68 <= average)%Qc /\ (average <= literal 72)%Qc.
Proof.
  assert (Hne : sensor_readings_example <> []) by discriminate.
  split; [exact Hne|].
  apply (@federated_global_average_within_bounds (literal 68) (literal 72)).
  - exact Hne.
  - repeat constructor; first [discriminate | Qc_order].
Defined.

Lemma documented_compression_twice :
  exists compressed : list Qc,
    top_1_compression (M := result) gradients_example = inr compressed /\
    top_1_compression (M := result) compressed = inr compressed.
Proof.
  destruct (@top_1_compression_ok gradients_example)
    as (i & gi & _ & _ & _ & E); [discriminate|].
  eexists. split; [exact E|].
  exact (top_1_compression_idempotent gradients_example E).
Defined.

Lemma documented_compression_doubled :
  exists compressed : list Qc,
    top_1_compression (M := result) gradients_example = inr compressed /\
    top_1_compression (M := result) (map (Qcmult (literal 2)) gradients_example)
    = inr (map (Qcmult (literal 2)) compressed).
Proof.
  destruct (@top_1_compression_ok gradients_example)
    as (i & gi & _ & _ & _ & E); [discriminate|].
  eexists. split; [exact E|].
  exact (top_1_compression_scales (literal 2) gradients_example E).
Defined.
